(** * toolkit: a shallow embedding of the Go package and its specification

    The package [toolkit] offers helpers for web back ends: random names,
    multipart uploads, directory creation, slugs, and JSON request and
    response handling.  Every function of the package is translated below
    into a Rocq function of the same name.  What the package takes from the
    Go standard library and from the operating system (the entropy source,
    the file system, the multipart and JSON decoders, the HTTP client) is
    either modelled explicitly as state that is passed around, or taken as
    a variable of a section.

    Part I holds the definitions, Part II the lemmas and theorems. *)

From Stdlib Require Import ZArith Znumtheory Zpow_facts Lia List String Ascii.
From Stdlib Require Import Zmod.
From stdpp Require Import base strings list gmap pretty.

Open Scope Z_scope.

(* ===================================================================== *)
(** * Part I: the model                                                   *)
(* ===================================================================== *)

(** ** Go values shared by all functions *)

(** A [rune] is a Unicode code point (Go's [int32]); a [byte] is a value
    in [0, 255]. A Go [string] that only holds ASCII text is written as a
    Rocq [string]; text that may hold arbitrary Unicode is a [list rune],
    the sequence a [range] loop over the string would yield. *)
Definition rune := Z.
Definition byte := Z.

Definition rune_of_ascii (c : ascii) : rune := Z.of_N (N_of_ascii c).
Definition ascii_of_rune (r : rune) : ascii := ascii_of_N (Z.to_N r).

(** [[]rune(s)] for an ASCII string, and [string(rs)] for ASCII runes. *)
Definition runes (s : string) : list rune :=
  map rune_of_ascii (list_ascii_of_string s).
Definition string_of_runes (rs : list rune) : string :=
  string_of_list_ascii (map ascii_of_rune rs).

(** A Go computation either returns or panics. *)
Inductive outcome (A : Type) : Type :=
| Ret (a : A)
| Panic (why : string).
Arguments Ret {A} a.
Arguments Panic {A} why.

#[global] Instance outcome_bind : MBind outcome := fun A B k m =>
  match m with
  | Ret a => k a
  | Panic why => Panic why
  end.
#[global] Instance outcome_ret : MRet outcome := fun A a => Ret a.

(** Error numbers of the system calls the package reaches. *)
Inductive Errno := ENOENT | ENOTDIR | EACCES | EISDIR | EEXIST | ENOSPC.

(** Go's [error] values, as far as the package creates or inspects them.
    The errors of [encoding/json] carry the text their [Error] method
    returns. *)
Inductive error :=
| errorString (s : string)                      (* errors.New(s) *)
| io_EOF
| io_ErrUnexpectedEOF
| fs_PathError (Op : string) (Path : list string) (Err : Errno)
| http_ErrNotMultipart
| http_ErrMissingBoundary
| multipart_ErrMessageTooLarge
| http_MaxBytesError (Limit : Z)
| json_SyntaxError (msg : string) (Offset : Z)
| json_UnmarshalTypeError (msg : string) (Field : string) (Offset : Z)
| json_InvalidUnmarshalError (msg : string).

#[global] Instance Errno_eq_dec : EqDecision Errno.
Proof. solve_decision. Defined.
#[global] Instance error_eq_dec : EqDecision error.
Proof. solve_decision. Defined.

Definition Errno_text (e : Errno) : string :=
  match e with
  | ENOENT => "no such file or directory"
  | ENOTDIR => "not a directory"
  | EACCES => "permission denied"
  | EISDIR => "is a directory"
  | EEXIST => "file exists"
  | ENOSPC => "no space left on device"
  end.

(** [err.Error()]. *)
Definition Error (err : error) : string :=
  match err with
  | errorString s => s
  | io_EOF => "EOF"
  | io_ErrUnexpectedEOF => "unexpected EOF"
  | fs_PathError op p e =>
      op +:+ " " +:+ String.concat "/" p +:+ ": " +:+ Errno_text e
  | http_ErrNotMultipart => "request Content-Type isn't multipart/form-data"
  | http_ErrMissingBoundary => "no multipart boundary param in Content-Type"
  | multipart_ErrMessageTooLarge => "multipart: message too large"
  | http_MaxBytesError _ => "http: request body too large"
  | json_SyntaxError msg _ => msg
  | json_UnmarshalTypeError msg _ _ => msg
  | json_InvalidUnmarshalError msg => msg
  end.

(** ** RandomString *)

Definition randomStringSource : string :=
  "abcdefghijklmnopqrstuvwxyzABCDEFGHIJKLMNOPQRSTUVWXYZ0123456789_+".

(** The entropy source [rand.Reader], seen through the only function that
    reads it: the list holds the results of the coming calls of
    [rand.Prime], [Some p] for a prime and [None] for a failed read (Go
    then returns a nil [*big.Int] and an error).  A source that has run
    dry fails. *)
Definition PrimeSource := list (option Z).

(** [rand.Prime(rand.Reader, bits)]. *)
Definition rand_Prime (src : PrimeSource) (bits : Z) : option Z * PrimeSource :=
  match src with
  | [] => (None, [])
  | r :: src' => (r, src')
  end.

(** What the library promises of a successful [rand.Prime(_, bits)]: a
    prime of exactly [bits] bits. *)
Definition prime_of_bits (bits p : Z) : Prop :=
  Z.prime p /\ 2 ^ (bits - 1) <= p < 2 ^ bits.

(** [p.Uint64()] of a [big.Int]: its low 64 bits. *)
Definition Uint64 (p : Z) : Z := p mod 2 ^ 64.

(** The body of the loop [for i := range s], unrolled [n] times: it
    returns the runes written to [s[i..]] and the source left. *)
Fixpoint RandomString_loop (r : list rune) (n : nat) (src : PrimeSource)
  : outcome (list rune * PrimeSource) :=
  match n with
  | O => Ret ([], src)
  | S n' =>
      match rand_Prime src (Z.of_nat (length r)) with
      | (None, _) => Panic "invalid memory address or nil pointer dereference"
      | (Some p, src') =>
          let x := Uint64 p in
          let y := Z.of_nat (length r) in
          if y =? 0 then Panic "integer divide by zero"
          else
            match r !! Z.to_nat (x mod y) with
            | None => Panic "index out of range"
            | Some c =>
                '(s, src'') ← RandomString_loop r n' src';
                Ret (c :: s, src'')
            end
      end
  end.

Definition RandomString (n : Z) (src : PrimeSource)
  : outcome (list rune * PrimeSource) :=
  if n <? 0 then Panic "makeslice: len out of range"
  else RandomString_loop (runes randomStringSource) (Z.to_nat n) src.

(** The runes of a text at the odd positions 1, 3, 5, ... *)
Fixpoint odd_positions (l : list rune) : list rune :=
  match l with
  | _ :: x :: rest => x :: odd_positions rest
  | _ => []
  end.

(** A prime that [rand.Prime(rand.Reader, 64)] can return: its two top
    bits and its lowest bit are set. *)
Definition sample_prime : Z := 13835059644420063233.

(** ** The file system

    A path is modelled by its elements from the root of the file system:
    what the kernel resolves a path to when it holds no [.], no [..] and
    no symbolic link.  The root is the empty path.  A directory carries
    its permission bits, a regular file its content.  [avail] is the
    number of bytes of file content the device can still take, and
    [umask] the file mode creation mask of the calling process.

    The model is that of one process that owns every directory it meets
    and is not the superuser: access is decided by the owner's bits.  It
    keeps no account of the space or of the inodes that directory entries
    take, so it says when [mkdir(2)] and [open(2)] fail for the reasons
    it knows ([ENOENT], [ENOTDIR], [EACCES], [EEXIST], [EISDIR]), and not
    that they succeed on a real device otherwise. *)
Abbreviation path := (list string).

Inductive node :=
| Dir (perm : Z)
| Regular (data : list byte).

Record FS := mkFS {
  nodes : gmap (list string) node;
  avail : Z;
  umask : Z
}.

(** The owner's search and write bits (0100 and 0200). *)
Definition searchable (perm : Z) : bool := Z.testbit perm 6.
Definition writable (perm : Z) : bool := Z.testbit perm 7.

(** Path resolution: from the directory [cur], already reached, down the
    elements [rest]. *)
Fixpoint walk (m : gmap (list string) node) (cur : path) (rest : list string)
  : node + Errno :=
  match m !! cur with
  | None => inr ENOENT
  | Some n =>
      match rest with
      | [] => inl n
      | x :: rest' =>
          match n with
          | Regular _ => inr ENOTDIR
          | Dir perm =>
              if searchable perm then walk m (cur ++ [x]) rest' else inr EACCES
          end
      end
  end.

(** [os.Stat]: the node, or the error number of the failed call. *)
Definition os_Stat (fs : FS) (p : path) : node + Errno := walk (nodes fs) [] p.

(** [os.IsNotExist(err)] for the error of [os.Stat]; a nil error is not
    one. *)
Definition os_IsNotExist (r : node + Errno) : bool :=
  match r with
  | inr ENOENT => true
  | _ => false
  end.

Definition parent (p : path) : path := removelast p.

(** Adding an entry under an existing, writable parent directory; shared
    by [mkdir(2)] and [open(2)] with [O_CREAT]. *)
Definition add_entry (fs : FS) (p : path) (n : node) : FS * option Errno :=
  match p with
  | [] => (fs, Some ENOENT)
  | _ :: _ =>
      match os_Stat fs (parent p) with
      | inl (Dir pp) =>
          if writable pp
          then (mkFS (<[p := n]> (nodes fs)) (avail fs) (umask fs), None)
          else (fs, Some EACCES)
      | inl (Regular _) => (fs, Some ENOTDIR)
      | inr e => (fs, Some e)
      end
  end.

(** The mode a directory created with [perm] gets: the nine permission
    bits of [perm] less the bits of the umask. *)
Definition masked (fs : FS) (perm : Z) : Z :=
  Z.ldiff (Z.land perm 511) (umask fs).

(** [os.Mkdir(p, perm)]: the permission bits [perm] are used before
    umask. *)
Definition os_Mkdir (fs : FS) (p : path) (perm : Z) : FS * option Errno :=
  match os_Stat fs p with
  | inl _ => (fs, Some EEXIST)
  | inr ENOENT => add_entry fs p (Dir (masked fs perm))
  | inr e => (fs, Some e)
  end.

(** [os.MkdirAll(p, perm)], by recursion on the reversed path as Go
    recurses on the parent: the fast path when [p] can be stat-ed, else
    the parent first, then [Mkdir], and a second look when that fails. *)
Fixpoint MkdirAll_rev (fs : FS) (rp : list string) (perm : Z)
  : FS * option error :=
  let p := rev rp in
  match os_Stat fs p with
  | inl (Dir _) => (fs, None)
  | inl (Regular _) => (fs, Some (fs_PathError "mkdir" p ENOTDIR))
  | inr _ =>
      let '(fs1, err) :=
        match rp with
        | [] => (fs, None)
        | _ :: rparent => MkdirAll_rev fs rparent perm
        end in
      match err with
      | Some e => (fs1, Some e)
      | None =>
          match os_Mkdir fs1 p perm with
          | (fs2, None) => (fs2, None)
          | (fs2, Some e) =>
              match os_Stat fs2 p with
              | inl (Dir _) => (fs2, None)
              | _ => (fs2, Some (fs_PathError "mkdir" p e))
              end
          end
      end
  end.

Definition os_MkdirAll (fs : FS) (p : path) (perm : Z) : FS * option error :=
  MkdirAll_rev fs (rev p) perm.

(** [os.Create(p)]: open for writing, create if missing, truncate if
    present. *)
Definition os_Create (fs : FS) (p : path) : FS * option Errno :=
  match os_Stat fs p with
  | inl (Dir _) => (fs, Some EISDIR)
  | inl (Regular old) =>
      (mkFS (<[p := Regular []]> (nodes fs)) (avail fs + Z.of_nat (length old))
         (umask fs), None)
  | inr ENOENT => add_entry fs p (Regular [])
  | inr e => (fs, Some e)
  end.

(** Writing [data] at the end of the open file [p]: all of it when the
    device has room, else what fits and [ENOSPC]. The second component is
    the number of bytes written. *)
Definition write_file (fs : FS) (p : path) (data : list byte)
  : FS * Z * option Errno :=
  match nodes fs !! p with
  | Some (Regular old) =>
      let n := Z.of_nat (length data) in
      if n <=? avail fs
      then (mkFS (<[p := Regular (old ++ data)]> (nodes fs)) (avail fs - n) (umask fs),
            n, None)
      else
        let k := Z.to_nat (avail fs) in
        (mkFS (<[p := Regular (old ++ take k data)]> (nodes fs)) (avail fs - Z.of_nat k)
           (umask fs),
         Z.of_nat k, Some ENOSPC)
  | _ => (fs, 0, Some EISDIR)
  end.

(** What a run of [MkdirAll] leaves behind, whether it succeeds or not:
    the umask is as before, old entries stay, and a new entry is a
    directory on the way to the path, of mode [perm] less the umask. *)
Definition grows_by_dirs (perm : Z) (p : path) (fs fs' : FS) : Prop :=
  umask fs' = umask fs /\
  (forall q n, nodes fs !! q = Some n -> nodes fs' !! q = Some n) /\
  (forall q n, nodes fs !! q = None -> nodes fs' !! q = Some n ->
               n = Dir (masked fs perm) /\ q `prefix_of` p).

(** ** CreateDirIfNotExists *)

Definition mode : Z := 493. (* 0755 *)

Definition CreateDirIfNotExists (p : path) (fs : FS) : FS * option error :=
  if os_IsNotExist (os_Stat fs p) then
    match os_MkdirAll fs p mode with
    | (fs', Some err) => (fs', Some err)
    | (fs', None) => (fs', None)
    end
  else (fs, None).

(** ** UploadFiles and UploadOneFile *)

Record Tools := mkTools {
  MaxFileSize : Z;
  AllowedFileTypes : list string;
  MaxJSONSize : Z;
  AllowUnknownFields : bool
}.

Record UploadedFile := mkUploadedFile {
  NewFileName : string;
  OriginalFileName : string;
  FileSize : Z
}.

(** A [multipart.File]: the part's content and the read position. *)
Record multipart_File := mkFile {
  content : list byte;
  offset : nat
}.

(** A [multipart.FileHeader]: the file name as submitted (the decoder
    keeps its last element only) and what [Open] will return. *)
Record FileHeader := mkFileHeader {
  Filename : string;
  Open : multipart_File + error
}.

(** [r.MultipartForm] after a successful parse. [File] is a Go map; the
    list gives its entries in the order the [range] loop visits them. *)
Record Form := mkForm {
  Value : list (string * list string);
  File : list (string * list FileHeader)
}.

(** An incoming request, seen through [ParseMultipartForm(maxMemory)]. *)
Record Request := mkRequest {
  ParseMultipartForm : Z -> Form + error
}.

(** The state outside the package that an upload reads and writes. *)
Record World := mkWorld {
  fs : FS;
  entropy : PrimeSource
}.

(** [infile.Read(buff)] with [len(buff) = size]: the buffer after the
    call, the number of bytes read, the error and the file. *)
Definition File_Read (f : multipart_File) (size : nat)
  : list byte * Z * option error * multipart_File :=
  let rest := drop (offset f) (content f) in
  match rest with
  | [] => (replicate size 0, 0, Some io_EOF, f)
  | _ :: _ =>
      let got := take size rest in
      (got ++ replicate (size - length got) 0,
       Z.of_nat (length got), None,
       mkFile (content f) (offset f + length got))
  end.

(** [infile.Seek(off, io.SeekStart)]. *)
Definition File_Seek (f : multipart_File) (off : Z)
  : Z * option error * multipart_File :=
  if off <? 0
  then (0, Some (errorString "Seek: invalid offset"), f)
  else (off, None, mkFile (content f) (Z.to_nat off)).

(** [io.Copy(outfile, infile)] where [outfile] is the open file at [p]:
    everything from the read position on. *)
Definition io_Copy (w : FS) (p : path) (infile : multipart_File)
  : FS * Z * option error :=
  match write_file w p (drop (offset infile) (content infile)) with
  | (w', n, Some e) => (w', n, Some (fs_PathError "write" p e))
  | (w', n, None) => (w', n, None)
  end.

(** [filepath.Ext]: the suffix from the last dot of the last element. *)
Fixpoint Ext_scan (rpath : list ascii) (acc : list ascii) : list ascii :=
  match rpath with
  | [] => []
  | c :: rest =>
      if Ascii.eqb c "/" then []
      else if Ascii.eqb c "." then c :: acc
      else Ext_scan rest (c :: acc)
  end.

Definition filepath_Ext (name : string) : string :=
  string_of_list_ascii (Ext_scan (rev (list_ascii_of_string name)) []).

(** [filepath.Join(dir, name)] for a file name [name] of one element. *)
Definition filepath_Join (dir : path) (name : string) : path :=
  if decide (name = EmptyString) then dir
  else if decide (name = ".") then dir
  else if decide (name = "..") then parent dir
  else dir ++ [name].

(** The first lines of [UploadFiles]: a [MaxFileSize] of 0 is replaced by
    1 GB, in the configuration itself. *)
Definition defaulted (t : Tools) : Tools :=
  if MaxFileSize t =? 0
  then mkTools (1024 * 1024 * 1024) (AllowedFileTypes t)
               (MaxJSONSize t) (AllowUnknownFields t)
  else t.

Section Upload.

(** [http.DetectContentType] and [strings.EqualFold] of the standard
    library. *)
Variable DetectContentType : list byte -> string.
Variable EqualFold : string -> string -> bool.

(** The check of the sniffed type against [t.AllowedFileTypes]. *)
Definition type_allowed (t : Tools) (fileType : string) : bool :=
  if (0 <? length (AllowedFileTypes t))%nat
  then fold_left
         (fun allowed typeOfFile =>
            if EqualFold fileType typeOfFile then true else allowed)
         (AllowedFileTypes t) false
  else true.

(** The function literal that [UploadFiles] calls for each file header;
    on every error it returns a nil list with the error. The deferred
    [Close] calls change nothing that is modelled here. *)
Definition upload_file (t : Tools) (uploadDir : path) (renameFile : bool)
    (hdr : FileHeader) (uploadedFiles : list UploadedFile) (w : World)
  : outcome (list UploadedFile * option error * World) :=
  match Open hdr with
  | inr err => Ret ([], Some err, w)
  | inl infile =>
      let '(buff, _, err, infile) := File_Read infile 512 in
      match err with
      | Some err => Ret ([], Some err, w)
      | None =>
          let fileType := DetectContentType buff in
          if negb (type_allowed t fileType)
          then Ret ([], Some (errorString "the uploaded file type is not permitted"), w)
          else
            let '(_, err, infile) := File_Seek infile 0 in
            match err with
            | Some err => Ret ([], Some err, w)
            | None =>
                '(newFileName, src) ←
                  (if renameFile
                   then '(s, src) ← RandomString 25 (entropy w);
                        Ret (string_of_runes s +:+ filepath_Ext (Filename hdr), src)
                   else Ret (Filename hdr, entropy w));
                let dst := filepath_Join uploadDir newFileName in
                match os_Create (fs w) dst with
                | (fs1, Some err) =>
                    Ret ([], Some (fs_PathError "open" dst err), mkWorld fs1 src)
                | (fs1, None) =>
                    match io_Copy fs1 dst infile with
                    | (fs2, _, Some err) => Ret ([], Some err, mkWorld fs2 src)
                    | (fs2, fileSize, None) =>
                        Ret (uploadedFiles ++
                               [mkUploadedFile newFileName (Filename hdr) fileSize],
                             None, mkWorld fs2 src)
                    end
                end
            end
      end
  end.

(** The inner loop [for _, hdr := range fHeaders]. The result of the
    function literal is assigned to [uploadedFiles] and [err] before
    [err] is tested; [Some err] in the result means that [UploadFiles]
    returns [uploadedFiles, err]. *)
Fixpoint range_headers (t : Tools) (uploadDir : path) (renameFile : bool)
    (fHeaders : list FileHeader) (uploadedFiles : list UploadedFile)
    (w : World)
  : outcome (list UploadedFile * option error * World) :=
  match fHeaders with
  | [] => Ret (uploadedFiles, None, w)
  | hdr :: rest =>
      '(uploadedFiles, err, w) ←
        upload_file t uploadDir renameFile hdr uploadedFiles w;
      match err with
      | Some err => Ret (uploadedFiles, Some err, w)
      | None => range_headers t uploadDir renameFile rest uploadedFiles w
      end
  end.

(** The outer loop [for _, fHeaders := range r.MultipartForm.File]. *)
Fixpoint range_form (t : Tools) (uploadDir : path) (renameFile : bool)
    (groups : list (string * list FileHeader))
    (uploadedFiles : list UploadedFile) (w : World)
  : outcome (list UploadedFile * option error * World) :=
  match groups with
  | [] => Ret (uploadedFiles, None, w)
  | (_, fHeaders) :: rest =>
      '(uploadedFiles, err, w) ←
        range_headers t uploadDir renameFile fHeaders uploadedFiles w;
      match err with
      | Some err => Ret (uploadedFiles, Some err, w)
      | None => range_form t uploadDir renameFile rest uploadedFiles w
      end
  end.

(** [UploadFiles]. The receiver is a pointer, so the configuration with
    its defaulted [MaxFileSize] is part of the result. *)
Definition UploadFiles (t : Tools) (r : Request) (uploadDir : path)
    (rename : list bool) (w : World)
  : outcome (list UploadedFile * option error * Tools * World) :=
  let renameFile := match rename with b :: _ => b | [] => true end in
  let uploadedFiles : list UploadedFile := [] in
  let t := defaulted t in
  match CreateDirIfNotExists uploadDir (fs w) with
  | (fs1, Some err) => Ret ([], Some err, t, mkWorld fs1 (entropy w))
  | (fs1, None) =>
      let w := mkWorld fs1 (entropy w) in
      match ParseMultipartForm r (MaxFileSize t) with
      | inr _ =>
          Ret ([], Some (errorString "the uploaded file is too big"), t, w)
      | inl form =>
          '(uploadedFiles, err, w) ←
            range_form t uploadDir renameFile (File form) uploadedFiles w;
          Ret (uploadedFiles, err, t, w)
      end
  end.

(** [UploadOneFile]. *)
Definition UploadOneFile (t : Tools) (request : Request) (uploadDir : path)
    (rename : list bool) (w : World)
  : outcome (option UploadedFile * option error * Tools * World) :=
  let renameFile := match rename with b :: _ => b | [] => true end in
  '(files, err, t, w) ← UploadFiles t request uploadDir [renameFile] w;
  match err with
  | Some err => Ret (None, Some err, t, w)
  | None =>
      match files !! 0%nat with
      | Some f => Ret (Some f, None, t, w)
      | None => Panic "index out of range [0] with length 0"
      end
  end.

End Upload.

(** ** Sample instances of the library functions

    Small stand-ins for [http.DetectContentType] and [strings.EqualFold],
    used where a statement is evaluated on a concrete request. The first
    knows the PNG and JPEG signatures and answers
    [application/octet-stream] otherwise; the second compares ASCII text
    without regard to case. *)
Definition png_signature : list byte := [137; 80; 78; 71; 13; 10; 26; 10].
Definition jpeg_signature : list byte := [255; 216; 255].

Definition sample_DetectContentType (data : list byte) : string :=
  if decide (take 8 data = png_signature) then "image/png"
  else if decide (take 3 data = jpeg_signature) then "image/jpeg"
  else "application/octet-stream".

Definition ascii_lower (c : ascii) : ascii :=
  let n := nat_of_ascii c in
  if ((65 <=? n) && (n <=? 90))%nat then ascii_of_nat (n + 32) else c.

Definition sample_EqualFold (s t : string) : bool :=
  bool_decide (map ascii_lower (list_ascii_of_string s) =
               map ascii_lower (list_ascii_of_string t)).

(** A file system with a writable root and upload directory. *)
Definition sample_fs : FS :=
  mkFS (<[ ["uploads"] := Dir mode ]> {[ [] := Dir mode ]}) 4096 18. (* umask 022 *)

Definition sample_world : World := mkWorld sample_fs [].

Definition sample_tools : Tools := mkTools 0 [] 0 false.

(** A request whose form carries the given file headers under the one
    field name [file]. *)
Definition request_with (hdrs : list FileHeader) : Request :=
  mkRequest (fun _ => inl (mkForm [] [("file", hdrs)])).

Definition png_part : FileHeader :=
  mkFileHeader "img.png" (inl (mkFile (png_signature ++ [0; 0; 0; 13]) 0)).

Definition empty_part : FileHeader :=
  mkFileHeader "empty.txt" (inl (mkFile [] 0)).

(** ** Slugify

    The input is the sequence of runes of the Go string, as both
    [strings.ToLower] and the regular expression read it. *)

Definition hyphen : rune := 45.

(** The two errors of [Slugify], under the names the specification gives
    them. *)
Definition EmptyInput : error := errorString "empty string not permitted".
Definition EmptyResult : error :=
  errorString "after removing characters, slug is zero length".

(** The character class [a-z\d] of the expression: an ASCII lower-case
    letter or digit. *)
Definition in_class (r : rune) : bool :=
  ((97 <=? r) && (r <=? 122)) || ((48 <=? r) && (r <=? 57)).

(** [regEx.ReplaceAllString(src, "-")] for the expression [[^a-z\d]+]:
    [ReplaceAllString] scans for the start of the next match and copies
    what is before it; at a match it writes the replacement, and
    [skip_match] lets the greedy [+] take every further rune outside the
    class. *)
Fixpoint ReplaceAllString (src : list rune) : list rune :=
  match src with
  | [] => []
  | r :: rest =>
      if in_class r then r :: ReplaceAllString rest
      else hyphen :: skip_match rest
  end
with skip_match (src : list rune) : list rune :=
  match src with
  | [] => []
  | r :: rest =>
      if in_class r then r :: ReplaceAllString rest
      else skip_match rest
  end.

(** [strings.TrimLeft], [strings.TrimRight] and [strings.Trim]. *)
Fixpoint strings_TrimLeft (s cutset : list rune) : list rune :=
  match s with
  | [] => []
  | r :: rest =>
      if bool_decide (r ∈ cutset) then strings_TrimLeft rest cutset else s
  end.

Definition strings_TrimRight (s cutset : list rune) : list rune :=
  rev (strings_TrimLeft (rev s) cutset).

Definition strings_Trim (s cutset : list rune) : list rune :=
  strings_TrimRight (strings_TrimLeft s cutset) cutset.

Section Slugify.

(** The lower-case mapping of Go's Unicode tables for the runes above
    ASCII (it maps the Kelvin sign to [k], for one). *)
Variable unicode_lower : rune -> rune.

(** [unicode.ToLower] and [strings.ToLower]. *)
Definition unicode_ToLower (r : rune) : rune :=
  if r <=? 127
  then (if (65 <=? r) && (r <=? 90) then r + 32 else r)
  else unicode_lower r.

Definition strings_ToLower (s : list rune) : list rune :=
  map unicode_ToLower s.

Definition Slugify (s : list rune) : list rune * option error :=
  if decide (s = []) then ([], Some (errorString "empty string not permitted"))
  else
    let slug :=
      strings_Trim (ReplaceAllString (strings_ToLower s)) (runes "-") in
    if (length slug =? 0)%nat
    then ([], Some (errorString "after removing characters, slug is zero length"))
    else (slug, None).

(** *** The transform in the words of the specification *)

(** The maximal runs of a text: its division into blocks of runes that
    are all inside or all outside the class, no two neighbours of the
    same kind. *)
Fixpoint maximal_runs (s : list rune) : list (bool * list rune) :=
  match s with
  | [] => []
  | r :: rest =>
      match maximal_runs rest with
      | (k, b) :: bs =>
          if Bool.eqb k (in_class r) then (k, r :: b) :: bs
          else (in_class r, [r]) :: (k, b) :: bs
      | [] => [(in_class r, [r])]
      end
  end.

(** Neighbouring blocks differ in kind. *)
Fixpoint alternating (bs : list (bool * list rune)) : Prop :=
  match bs with
  | (k, _) :: (((k', _) :: _) as rest) => k <> k' /\ alternating rest
  | _ => True
  end.

(** Every maximal run outside the class becomes one hyphen. *)
Definition collapse_runs (s : list rune) : list rune :=
  concat (map (fun '(k, b) => if (k : bool) then b else [hyphen])
              (maximal_runs s)).

Fixpoint trim_leading_hyphens (s : list rune) : list rune :=
  match s with
  | [] => []
  | r :: rest => if r =? hyphen then trim_leading_hyphens rest else s
  end.

Fixpoint trim_trailing_hyphens (s : list rune) : list rune :=
  match s with
  | [] => []
  | r :: rest =>
      match trim_trailing_hyphens rest with
      | [] => if r =? hyphen then [] else [r]
      | t => r :: t
      end
  end.

Definition slugify_spec (s : list rune) : list rune * option error :=
  match s with
  | [] => ([], Some EmptyInput)
  | _ :: _ =>
      match trim_trailing_hyphens
              (trim_leading_hyphens (collapse_runs (strings_ToLower s))) with
      | [] => ([], Some EmptyResult)
      | slug => (slug, None)
      end
  end.

End Slugify.

(** ** HTTP headers, response writers and responses *)

(** An [http.Header]: a map from header names to their values. *)
Abbreviation Header := (gmap string (list string)).

Definition is_lower (c : ascii) : bool :=
  let n := nat_of_ascii c in ((97 <=? n) && (n <=? 122))%nat.
Definition is_upper (c : ascii) : bool :=
  let n := nat_of_ascii c in ((65 <=? n) && (n <=? 90))%nat.
Definition is_digit (c : ascii) : bool :=
  let n := nat_of_ascii c in ((48 <=? n) && (n <=? 57))%nat.

(** The bytes of an HTTP token. *)
Definition validHeaderFieldByte (c : ascii) : bool :=
  is_lower c || is_upper c || is_digit c ||
  bool_decide (nat_of_ascii c ∈
    [33; 35; 36; 37; 38; 39; 42; 43; 45; 46; 94; 95; 96; 124; 126]%nat).

(** [textproto.CanonicalMIMEHeaderKey]: a key of token bytes gets an
    upper-case letter first and after each hyphen and lower-case letters
    elsewhere; any other key is left as it is. *)
Fixpoint canonical_bytes (upper : bool) (a : list ascii) : list ascii :=
  match a with
  | [] => []
  | c :: rest =>
      let c' :=
        if upper && is_lower c then ascii_of_nat (nat_of_ascii c - 32)
        else if negb upper && is_upper c then ascii_of_nat (nat_of_ascii c + 32)
        else c in
      c' :: canonical_bytes (Ascii.eqb c' "-") rest
  end.

Definition CanonicalMIMEHeaderKey (s : string) : string :=
  let a := list_ascii_of_string s in
  if forallb validHeaderFieldByte a
  then string_of_list_ascii (canonical_bytes true a)
  else s.

(** [h.Set(key, value)]. *)
Definition Header_Set (h : Header) (key value : string) : Header :=
  <[CanonicalMIMEHeaderKey key := [value]]> h.

(** An [http.ResponseWriter], as [httptest.ResponseRecorder] records a
    response: the header map the handler edits, the status and the
    headers once they are sent, and the body written.  [write_error] is
    how the connection answers a [Write]: with [Some (k, err)] it takes
    [k] more bytes and then fails with [err], as an [io.Writer] may; a
    recorder never fails. *)
Record ResponseWriter := mkWriter {
  header : gmap string (list string);
  sent : option (Z * gmap string (list string));
  written : list byte;
  write_error : option (nat * error)
}.

(** [checkWriteHeaderCode] of [net/http], which the recorder and the
    server's writer both call. *)
Definition checkWriteHeaderCode (code : Z) : outcome unit :=
  if (code <? 100) || (999 <? code)
  then Panic ("invalid WriteHeader code " +:+ pretty code)
  else Ret tt.

(** Status and headers go out, unless they went out before. *)
Definition send_header (w : ResponseWriter) (status : Z) : ResponseWriter :=
  match sent w with
  | Some _ => w
  | None => mkWriter (header w) (Some (status, header w)) (written w) (write_error w)
  end.

(** [WriteHeader] does nothing once a header was written, and else
    panics on a code that does not have three digits. *)
Definition WriteHeader (w : ResponseWriter) (status : Z) : outcome ResponseWriter :=
  match sent w with
  | Some _ => Ret w
  | None => _ ← checkWriteHeaderCode status; Ret (send_header w status)
  end.

(** [Write] sends the status 200 first when no header was written; it
    returns the number of bytes it has written, which are the first of
    [out], and the error that made it stop early, if any. *)
Definition Write (w : ResponseWriter) (out : list byte)
  : ResponseWriter * Z * option error :=
  let w := send_header w 200 in
  match write_error w with
  | Some (k, err) =>
      let part := take k out in
      (mkWriter (header w) (sent w) (written w ++ part)
         (Some ((k - length part)%nat, err)),
       Z.of_nat (length part), Some err)
  | None =>
      (mkWriter (header w) (sent w) (written w ++ out) None,
       Z.of_nat (length out), None)
  end.

(** The body of an [http.Response]. *)
Record Body := mkBody {
  payload : list byte;
  consumed : nat;
  closed : bool
}.

Definition Body_Close (b : Body) : Body :=
  mkBody (payload b) (consumed b) true.

Record Response := mkResponse {
  StatusCode : Z;
  response_Header : gmap string (list string);
  response_Body : Body
}.

(** An outgoing [http.Request]. *)
Record ClientRequest := mkClientRequest {
  Method : string;
  URL : string;
  request_Header : gmap string (list string);
  request_Body : list byte
}.

(** An [http.Client], seen through [Do]. *)
Abbreviation Client := (ClientRequest -> Response + error).

(** ** ReadJSON, WriteJSON and PushJSONToRemote *)

(** The reader [http.MaxBytesReader(w, body, n)]: the bytes it hands out
    and the error that follows them, [io.EOF] when the body fits. *)
Record Reader := mkReader {
  pending : list byte;
  at_end : error
}.

Definition http_MaxBytesReader (body : list byte) (n : Z) : Reader :=
  if Z.of_nat (length body) <=? n
  then mkReader body io_EOF
  else mkReader (take (Z.to_nat n) body) (http_MaxBytesError n).

(** A [json.Decoder]: what is left of its input, and whether unknown
    fields are refused. *)
Record Decoder := mkDecoder {
  input : Reader;
  disallowUnknownFields : bool
}.

Definition json_NewDecoder (r : Reader) : Decoder := mkDecoder r false.
Definition DisallowUnknownFields (d : Decoder) : Decoder :=
  mkDecoder (input d) true.

Definition strings_TrimPrefix (s pre : string) : string :=
  if String.prefix pre s
  then String.substring (String.length pre) (String.length s - String.length pre) s
  else s.

Section JSON.

(** Go values passed as [interface{}]: payloads and decoding targets;
    [empty_struct] is the target [&struct{}{}]. *)
Variable any : Type.
Variable empty_struct : any.

(** [encoding/json], [fmt] and [net/http] of the standard library. *)
Variable json_Marshal : any -> list byte + error.
Variable json_Decode : Decoder -> any -> option error * Decoder.
Variable fmt_Sprintf : string -> list (Z + string) -> string.
Variable http_NewRequest : string -> string -> list byte -> ClientRequest + error.
Variable http_DefaultClient : ClientRequest -> Response + error.

Definition fmt_Errorf (format : string) (args : list (Z + string)) : error :=
  errorString (fmt_Sprintf format args).

(** The [switch] of [ReadJSON] on the error of the first [Decode]. *)
Definition ReadJSON_error (maxBytes : Z) (err : error) : error :=
  match err with
  | json_SyntaxError _ off =>
      fmt_Errorf "body contains badly-formed JSON (at character %d)" [inl off]
  | io_ErrUnexpectedEOF => errorString "body contains badly-formed JSON"
  | json_UnmarshalTypeError _ field off =>
      if negb (bool_decide (field = EmptyString))
      then fmt_Errorf "body contains incorrect JSON type for field %q" [inr field]
      else fmt_Errorf "body contains incorrect JSON type (at character %d)" [inl off]
  | io_EOF => errorString "body must not be empty"
  | _ =>
      if String.prefix "json: unknown field" (Error err) then
        let fieldName := strings_TrimPrefix (Error err) "json: unknown field" in
        fmt_Errorf "body contains unknown key %s" [inr fieldName]
      else if bool_decide (Error err = "http: request body too large") then
        fmt_Errorf "body must not be larger than %d" [inl maxBytes]
      else
        match err with
        | json_InvalidUnmarshalError _ =>
            fmt_Errorf "error unmarshalling JSON: %s" [inr (Error err)]
        | _ => err
        end
  end.

(** The first lines of [ReadJSON]: the byte limit, and the decoder set
    up over the limited body. *)
Definition ReadJSON_maxBytes (t : Tools) : Z :=
  if negb (MaxJSONSize t =? 0) then MaxJSONSize t else 1024 * 1024.

Definition ReadJSON_decoder (t : Tools) (body : list byte) : Decoder :=
  let decode := json_NewDecoder (http_MaxBytesReader body (ReadJSON_maxBytes t)) in
  if negb (AllowUnknownFields t) then DisallowUnknownFields decode else decode.

(** [ReadJSON]: the error it returns, for a request with the given
    body. *)
Definition ReadJSON (t : Tools) (body : list byte) (data : any)
  : option error :=
  let maxBytes := ReadJSON_maxBytes t in
  let decode := ReadJSON_decoder t body in
  let '(err, decode) := json_Decode decode data in
  match err with
  | Some err => Some (ReadJSON_error maxBytes err)
  | None =>
      let '(err, _) := json_Decode decode empty_struct in
      if negb (bool_decide (err = Some io_EOF))
      then Some (errorString "body must contain only one JSON value")
      else None
  end.

(** The loop [for key, value := range headers[0]] of [WriteJSON]. *)
Definition copy_headers (from to : gmap string (list string))
  : gmap string (list string) :=
  map_fold (fun key value h => <[key := value]> h) to from.

Definition WriteJSON (writer : ResponseWriter) (status : Z) (data : any)
    (headers : list (gmap string (list string)))
  : outcome (option error * ResponseWriter) :=
  match json_Marshal data with
  | inr err => Ret (Some err, writer)
  | inl out =>
      let h :=
        match headers with
        | h0 :: _ => copy_headers h0 (header writer)
        | [] => header writer
        end in
      let h := Header_Set h "Content-Type" "application/json" in
      let writer := mkWriter h (sent writer) (written writer) (write_error writer) in
      writer ← WriteHeader writer status;
      let '(writer, _, err) := Write writer out in
      match err with
      | Some err => Ret (Some err, writer)
      | None => Ret (None, writer)
      end
  end.

(** [PushJSONToRemote]. The deferred [response.Body.Close()] runs as
    the function returns; the caller holds the same response and sees
    its body closed. *)
Definition PushJSONToRemote (uri : string) (data : any)
    (client : list (ClientRequest -> Response + error))
  : option Response * Z * option error :=
  match json_Marshal data with
  | inr err => (None, 0, Some err)
  | inl jsonData =>
      let httpClient :=
        match client with
        | c :: _ => c
        | [] => http_DefaultClient
        end in
      match http_NewRequest "POST" uri jsonData with
      | inr err => (None, 0, Some err)
      | inl request =>
          let request :=
            mkClientRequest (Method request) (URL request)
              (Header_Set (request_Header request) "Content-Type" "application/json")
              (request_Body request) in
          match httpClient request with
          | inr err => (None, 0, Some err)
          | inl response =>
              (Some (mkResponse (StatusCode response) (response_Header response)
                                (Body_Close (response_Body response))),
               StatusCode response, None)
          end
      end
  end.

End JSON.

(** ** Sample instances of the JSON and HTTP libraries

    Stand-ins used where a statement is evaluated on a concrete request.
    [sample_Decode] skips white space, takes one brace-delimited value
    from the input and fails with a syntax error on anything else; at the
    end of the input it returns the reader's error. [sample_Marshal]
    writes a payload as it is, and [sample_Sprintf] returns the format
    without filling it in (no statement below reads a formatted text). *)
Definition is_space (b : byte) : bool :=
  bool_decide (b ∈ [32; 9; 10; 13]).

Fixpoint skip_space (bs : list byte) : list byte :=
  match bs with
  | [] => []
  | b :: rest => if is_space b then skip_space rest else bs
  end.

Fixpoint after_brace (bs : list byte) : option (list byte) :=
  match bs with
  | [] => None
  | b :: rest => if b =? 125 then Some rest else after_brace rest
  end.

Definition sample_Decode (d : Decoder) (target : list byte)
  : option error * Decoder :=
  let r := input d in
  match skip_space (pending r) with
  | [] => (Some (at_end r), mkDecoder (mkReader [] (at_end r)) (disallowUnknownFields d))
  | b :: rest =>
      if b =? 123 then
        match after_brace rest with
        | Some rest' =>
            (None, mkDecoder (mkReader rest' (at_end r)) (disallowUnknownFields d))
        | None => (Some io_ErrUnexpectedEOF, d)
        end
      else (Some (json_SyntaxError "invalid character looking for beginning of value" 1), d)
  end.

Definition sample_Marshal (data : list byte) : list byte + error := inl data.

Definition sample_Sprintf (format : string) (args : list (Z + string)) : string :=
  format.

Definition sample_NewRequest (method url : string) (body : list byte)
  : ClientRequest + error :=
  inl (mkClientRequest method url ∅ body).

(** The client of the package's test: status 200 and the body [ok]. *)
Definition sample_client (request : ClientRequest) : Response + error :=
  inl (mkResponse 200 ∅ (mkBody (runes "ok") 0 false)).

Definition dquote : string := String (ascii_of_nat 34) EmptyString.

(** The bodies [{"foo": "bar"}] and [{"foo": "1"}{"alpha":"beta"}] of the
    package's tests. *)
Definition body_good : list byte :=
  runes ("{" +:+ dquote +:+ "foo" +:+ dquote +:+ ": " +:+ dquote +:+ "bar"
         +:+ dquote +:+ "}").

Definition body_two : list byte :=
  runes ("{" +:+ dquote +:+ "foo" +:+ dquote +:+ ": " +:+ dquote +:+ "1"
         +:+ dquote +:+ "}{" +:+ dquote +:+ "alpha" +:+ dquote +:+ ":"
         +:+ dquote +:+ "beta" +:+ dquote +:+ "}").

Definition sample_writer : ResponseWriter := mkWriter ∅ None [] None.

(** [json.Marshal] on a value it cannot encode, such as a channel. *)
Definition failing_Marshal (err : error) (data : list byte) : list byte + error :=
  inr err.

(** ** ErrorJSON *)

(** [JSONResponse]; [Data] is an [interface{}], nil in a fresh value. *)
Record JSONResponse (any : Type) := mkJSONResponse {
  response_Error : bool;
  Message : string;
  Data : option any
}.
Arguments mkJSONResponse {any} _ _ _.
Arguments response_Error {any} _.
Arguments Message {any} _.
Arguments Data {any} _.

Section ErrorJSON.

Variable any : Type.
Variable json_Marshal : any -> list byte + error.

(** A [JSONResponse] passed as an [interface{}]. *)
Variable any_of_JSONResponse : JSONResponse any -> any.

Definition ErrorJSON (writer : ResponseWriter) (err : error) (status : list Z)
  : outcome (option error * ResponseWriter) :=
  let statusCode :=
    match status with
    | s :: _ => s
    | [] => 400 (* http.StatusBadRequest *)
    end in
  let payload := mkJSONResponse true (Error err) None in
  WriteJSON any json_Marshal writer statusCode (any_of_JSONResponse payload) [].

End ErrorJSON.

(** ** Notions used to state further properties *)

(** The file headers of a form, in the order [UploadFiles] visits them. *)
Definition all_headers (form : Form) : list FileHeader :=
  concat (map snd (File form)).

(** No two hyphens stand next to each other. *)
Fixpoint no_double_hyphen (s : list rune) : Prop :=
  match s with
  | a :: ((b :: _) as rest) => ~ (a = hyphen /\ b = hyphen) /\ no_double_hyphen rest
  | _ => True
  end.

(** A decoder that refuses every body with the given error. *)
Definition failing_Decode (err : error) (d : Decoder) (target : list byte)
  : option error * Decoder :=
  (Some err, d).


(** Further samples: a part of plain text, a world whose entropy source
    yields [sample_prime] 25 times, and a configuration that admits PNG
    images only. *)
Definition text_part : FileHeader :=
  mkFileHeader "notes.txt" (inl (mkFile (runes "hello") 0)).

Definition sample_world_entropy : World :=
  mkWorld sample_fs (replicate 25 (Some sample_prime)).

Definition png_only_tools : Tools := mkTools 0 ["IMAGE/PNG"] 0 false.

(* ===================================================================== *)
(** * Part II: lemmas and theorems                                        *)
(* ===================================================================== *)

(** ** Primality of [sample_prime]

    Proth's criterion: [N = k * 2 ^ m + 1] with [k < 2 ^ m] is prime when
    some [a] has [a ^ ((N - 1) / 2) = -1] modulo [N]. *)

Lemma prime_factor_le_sqrt : forall n,
  0 <= n -> 1 < n -> ~ Z.prime n ->
  exists q, Z.prime q /\ (q | n) /\ q * q <= n.
Proof.
  apply (Z_lt_induction
    (fun n => 1 < n -> ~ Z.prime n ->
              exists q, Z.prime q /\ (q | n) /\ q * q <= n)).
  intros n IH Hn Hnp. rewrite prime_alt in Hnp.
  destruct (not_prime_divide n Hn Hnp) as (d & [Hd1 Hd2] & [c Hc]).
  assert (Hc1 : 1 < c < n) by nia.
  assert (Hsmall : exists e, 1 < e < n /\ (e | n) /\ e * e <= n).
  { destruct (Z_le_gt_dec d c).
    - exists d. split; [lia|]. split; [exists c; lia|nia].
    - exists c. split; [lia|]. split; [exists d; lia|nia]. }
  destruct Hsmall as (e & He & Hen & Hee).
  destruct (prime_dec e) as [Hp|Hnp']; rewrite <- prime_alt in *.
  - exists e. auto.
  - destruct (IH e ltac:(lia) ltac:(lia) Hnp') as (q & Hq & Hqe & Hqq).
    exists q. split; [exact Hq|]. split; [|nia].
    eapply Z.divide_trans; eassumption.
Qed.

Lemma two_adic : forall e, 0 <= e -> 0 < e ->
  exists j r, 0 <= j /\ Z.odd r = true /\ e = 2 ^ j * r.
Proof.
  apply (Z_lt_induction
    (fun e => 0 < e -> exists j r, 0 <= j /\ Z.odd r = true /\ e = 2 ^ j * r)).
  intros e IH He.
  destruct (Z.odd e) eqn:Ho.
  - exists 0, e. rewrite Z.pow_0_r. repeat split; [lia|exact Ho|lia].
  - assert (Hev : Z.even e = true) by (rewrite <- Z.negb_odd, Ho; reflexivity).
    apply Z.even_spec in Hev. destruct Hev as [h Hh].
    destruct (IH h ltac:(lia) ltac:(lia)) as (j & r & Hj & Hr & E).
    exists (j + 1), r. repeat split; [lia|exact Hr|].
    rewrite Z.pow_add_r, Z.pow_1_r by lia. lia.
Qed.

Lemma pow_minus_one_odd q y r :
  1 < q -> 0 <= r -> Z.odd r = true ->
  y mod q = q - 1 -> y ^ r mod q = q - 1.
Proof.
  intros Hq Hr Ho Hy.
  rewrite Zpower_mod, Hy by lia.
  replace (q - 1) with ((-1) mod q).
  2:{ rewrite <- (Z_mod_plus_full (-1) 1 q).
      rewrite Z.mod_small; lia. }
  rewrite <- Zpower_mod by lia.
  replace ((-1) ^ r) with (-1); [reflexivity|].
  apply Z.odd_spec in Ho.
  change (-1) with (- (1)) at 2.
  rewrite Z.pow_opp_odd by exact Ho.
  rewrite Z.pow_1_l by lia. reflexivity.
Qed.

Section Proth.

Variables N k m a : Z.
Hypothesis Hm : 0 < m.
Hypothesis Hk : 0 < k < 2 ^ m.
Hypothesis HN : N = k * 2 ^ m + 1.
Hypothesis Ha : a ^ (k * 2 ^ (m - 1)) mod N = N - 1.

Lemma pow_split : 2 ^ m = 2 * 2 ^ (m - 1).
Proof.
  replace m with (1 + (m - 1)) at 1 by lia.
  rewrite Z.pow_add_r by lia. reflexivity.
Qed.

Lemma proth_divisor q : Z.prime q -> (q | N) -> (2 ^ m | q - 1).
Proof.
  intros Hq HqN.
  pose proof (Z.prime_ge_2 q Hq) as Hq2.
  pose proof pow_split as Hsplit.
  assert (Hpm : 0 < 2 ^ (m - 1)) by (apply Z.pow_pos_nonneg; lia).
  assert (Hkm : 0 < k * 2 ^ m) by (apply Z.mul_pos_pos; lia).
  assert (HN1 : 1 < N) by lia.
  set (E := k * 2 ^ (m - 1)) in *.
  assert (HE : 0 < E) by (subst E; nia).
  (* q is odd *)
  assert (Hq3 : q <> 2).
  { intros ->. destruct HqN as [c Hc]. lia. }
  (* a ^ E is -1 modulo q *)
  assert (HaE : a ^ E mod q = q - 1).
  { rewrite <- (Z.mod_mod_divide (a ^ E) N q) by exact HqN.
    rewrite Ha. destruct HqN as [c Hc].
    replace (N - 1) with (q - 1 + (c - 1) * q) by lia.
    rewrite Z_mod_plus_full. apply Z.mod_small. lia. }
  (* q does not divide a *)
  assert (Haq : a mod q <> 0).
  { intros H0. rewrite Zpower_mod, H0, Z.pow_0_l in HaE by lia.
    rewrite Z.mod_0_l in HaE by lia. lia. }
  pose proof (Z.fermat_nz q a Hq Haq) as HF.
  destruct (two_adic (q - 1) ltac:(lia) ltac:(lia)) as (j & r & Hj & Hr & Hqr).
  assert (Hr0 : 0 < r).
  { assert (0 < 2 ^ j) by (apply Z.pow_pos_nonneg; lia). nia. }
  destruct (Z_lt_le_dec j m) as [Hjm|Hjm].
  - exfalso.
    (* X = a ^ (E * r) is both 1 and -1 modulo q *)
    assert (H1 : a ^ (E * r) mod q = q - 1).
    { rewrite Z.pow_mul_r by lia.
      apply pow_minus_one_odd; (lia || assumption). }
    assert (H2 : a ^ (E * r) mod q = 1).
    { replace (E * r) with ((q - 1) * (k * 2 ^ (m - 1 - j))).
      - assert (0 <= 2 ^ (m - 1 - j)) by (apply Z.pow_nonneg; lia).
        rewrite Z.pow_mul_r by nia.
        rewrite Zpower_mod, HF, Z.pow_1_l by nia.
        apply Z.mod_small. lia.
      - subst E. rewrite Hqr.
        replace (m - 1) with (j + (m - 1 - j)) at 2 by lia.
        rewrite Z.pow_add_r by lia. ring. }
    lia.
  - rewrite Hqr. exists (2 ^ (j - m) * r).
    replace j with (m + (j - m)) at 1 by lia.
    rewrite Z.pow_add_r by lia. ring.
Qed.

Theorem proth : Z.prime N.
Proof.
  assert (Hpm : 0 < 2 ^ m) by (apply Z.pow_pos_nonneg; lia).
  destruct (prime_dec N) as [Hp|Hnp]; rewrite <- prime_alt in *;
    [exact Hp|exfalso].
  destruct (prime_factor_le_sqrt N ltac:(nia) ltac:(nia) Hnp)
    as (q & Hq & HqN & Hqq).
  pose proof (Z.prime_ge_2 q Hq) as Hq2.
  pose proof (proth_divisor q Hq HqN) as Hdiv.
  apply Z.divide_pos_le in Hdiv; [|lia].
  nia.
Qed.

End Proth.

Lemma prime_sample_prime : Z.prime sample_prime.
Proof.
  apply (proth sample_prime 1610612921 33 3).
  - lia.
  - vm_compute. split; reflexivity.
  - reflexivity.
  - rewrite <- Zpow_mod_correct by discriminate. vm_compute. reflexivity.
Qed.

(** ** RandomString *)

Lemma length_randomStringSource :
  length (runes randomStringSource) = 64%nat.
Proof. reflexivity. Qed.

Lemma odd_positions_lookup (l : list rune) i c :
  l !! (2 * i + 1)%nat = Some c -> c ∈ odd_positions l.
Proof.
  revert l. induction i as [|i IH]; intros l H.
  - destruct l as [|a [|b rest]]; try discriminate.
    injection H as ->. simpl. left.
  - destruct l as [|a [|b rest]]; try discriminate.
    replace (2 * S i + 1)%nat with (S (S (2 * i + 1))) in H by lia.
    simpl in *. right. apply IH, H.
Qed.

Lemma odd_positions_source :
  odd_positions (runes randomStringSource) =
  runes "bdfhjlnprtvxzBDFHJLNPRTVXZ13579+".
Proof. reflexivity. Qed.

(** A prime of 64 bits is odd, and so is its remainder modulo 64. *)
Lemma prime_of_bits_64_odd p :
  prime_of_bits 64 p ->
  exists i, Z.to_nat (Uint64 p mod 64) = (2 * i + 1)%nat /\ (i < 32)%nat.
Proof.
  intros [[Hp1 Hdiv] Hbits]. unfold Uint64.
  change (2 ^ (64 - 1)) with 9223372036854775808 in Hbits.
  change (2 ^ 64) with 18446744073709551616 in *.
  assert (Hodd : p mod 2 = 1).
  { destruct (Z.eq_dec (p mod 2) 0) as [H0|H0];
      [|Z.div_mod_to_equations; lia].
    exfalso. apply (Hdiv 2); [lia|].
    exists (p / 2). Z.div_mod_to_equations. lia. }
  exists (Z.to_nat (p mod 64 / 2)). Z.div_mod_to_equations. lia.
Qed.

Lemma RandomString_loop_length_alphabet (r : list rune) (ps : list Z) rest :
  r <> [] ->
  exists s, RandomString_loop r (length ps) (map Some ps ++ rest) = Ret (s, rest) /\
            length s = length ps /\ Forall (fun c => c ∈ r) s.
Proof.
  intros Hr. induction ps as [|p ps (s & Hs & Hlen & Hall)]; simpl.
  - exists []. repeat split. constructor.
  - assert (Hy : 0 < Z.of_nat (length r)) by (destruct r; [congruence|simpl; lia]).
    destruct (Z.eqb_spec (Z.of_nat (length r)) 0) as [E|_]; [lia|].
    destruct (lookup_lt_is_Some_2 r
                (Z.to_nat (Uint64 p mod Z.of_nat (length r)))) as [c Hc].
    { pose proof (Z.mod_pos_bound (Uint64 p) _ Hy). lia. }
    rewrite Hc, Hs. simpl. exists (c :: s). repeat split.
    + simpl. now rewrite Hlen.
    + constructor; [|exact Hall]. eapply list_elem_of_lookup_2, Hc.
Qed.

(** C7. For every length n >= 0, when the n reads of the entropy source
    succeed, RandomString returns a string of exactly n characters, each
    of them one of the 64 characters of randomStringSource. *)
Theorem RandomString_length_alphabet (n : Z) (ps : list Z) (rest : PrimeSource) :
  0 <= n -> Z.of_nat (length ps) = n ->
  exists s, RandomString n (map Some ps ++ rest) = Ret (s, rest) /\
            Z.of_nat (length s) = n /\
            Forall (fun c => c ∈ runes randomStringSource) s.
Proof.
  intros Hn Hlen. unfold RandomString.
  destruct (Z.ltb_spec n 0) as [?|_]; [lia|].
  replace (Z.to_nat n) with (length ps) by lia.
  destruct (RandomString_loop_length_alphabet (runes randomStringSource) ps rest)
    as (s & Hs & Hl & Hall); [discriminate|].
  exists s. repeat split; [exact Hs|lia|exact Hall].
Qed.

(** C7 on three reads that succeed, before one that would fail. *)
Lemma RandomString_length_alphabet_witness :
  exists s,
    RandomString 3 [Some 7; Some 64; Some sample_prime; None] = Ret (s, [None]) /\
            Z.of_nat (length s) = 3 /\
            Forall (fun c => c ∈ runes randomStringSource) s.
Proof.
  apply (RandomString_length_alphabet 3 [7; 64; sample_prime] [None]).
  - lia.
  - reflexivity.
Defined.

Lemma RandomString_loop_odd (r : list rune) (n : nat) :
  length r = 64%nat -> forall src s src',
  Forall (fun d => forall p, d = Some p -> prime_of_bits 64 p) src ->
  RandomString_loop r n src = Ret (s, src') ->
  Forall (fun c => c ∈ odd_positions r) s.
Proof.
  intros Hlen. induction n as [|n IH]; intros src s src' Hsrc; simpl.
  - intros [= <- _]. constructor.
  - destruct src as [|[p|] src1]; simpl; try discriminate.
    inversion Hsrc as [|? ? Hp Hsrc1]; subst.
    destruct (prime_of_bits_64_odd p (Hp p eq_refl)) as (i & Hi & Hi32).
    rewrite Hlen. change (Z.of_nat 64) with 64.
    simpl (64 =? 0). cbv iota. rewrite Hi.
    destruct (r !! (2 * i + 1)%nat) as [c|] eqn:Hc; [|discriminate].
    destruct (RandomString_loop r n src1) as [[s1 src2]|why] eqn:Hrec;
      simpl; [|discriminate].
    intros [= <- <-]. constructor.
    + eapply odd_positions_lookup, Hc.
    + eapply IH; eassumption.
Qed.

(** C2, as the code has it. When every successful read of the entropy
    source yields a prime of 64 bits, as rand.Prime promises, every
    character of the string RandomString returns stands at an odd
    position of randomStringSource: it is one of 32 characters, and the
    32 others, the letter a among them, never occur. *)
Theorem RandomString_odd_positions_only n src s src' :
  Forall (fun d => forall p, d = Some p -> prime_of_bits 64 p) src ->
  RandomString n src = Ret (s, src') ->
  Forall (fun c => c ∈ runes "bdfhjlnprtvxzBDFHJLNPRTVXZ13579+") s /\
  rune_of_ascii "a" ∉ s.
Proof.
  intros Hsrc. unfold RandomString.
  destruct (n <? 0); [discriminate|]. intros Hrun.
  pose proof (RandomString_loop_odd _ _ length_randomStringSource _ _ _ Hsrc Hrun)
    as Hodd.
  rewrite odd_positions_source in Hodd. split; [exact Hodd|].
  intros Ha. rewrite Forall_forall in Hodd. apply Hodd in Ha.
  apply list_elem_of_In in Ha. vm_compute in Ha. intuition discriminate.
Qed.

(** C2 on one read that yields [sample_prime]: the prime is 1 modulo 64,
    and the character drawn is b. *)
Lemma RandomString_odd_positions_only_witness :
  RandomString 1 [Some sample_prime] = Ret (runes "b", []) /\
  Forall (fun c => c ∈ runes "bdfhjlnprtvxzBDFHJLNPRTVXZ13579+") (runes "b") /\
  rune_of_ascii "a" ∉ runes "b".
Proof.
  split; [reflexivity|].
  apply (RandomString_odd_positions_only 1 [Some sample_prime] (runes "b") []).
  - constructor; [|constructor].
    intros p [= <-]. split; [exact prime_sample_prime|].
    unfold sample_prime. lia.
  - reflexivity.
Defined.

(** ** The file system *)

Lemma walk_snoc m cur a x :
  walk m cur (a ++ [x]) =
  match walk m cur a with
  | inl (Dir perm) =>
      if searchable perm then
        match m !! (cur ++ a ++ [x]) with
        | None => inr ENOENT
        | Some n => inl n
        end
      else inr EACCES
  | inl (Regular _) => inr ENOTDIR
  | inr e => inr e
  end.
Proof.
  revert cur. induction a as [|y a IH]; intros cur; simpl.
  - destruct (m !! cur) as [[perm|d]|]; reflexivity.
  - destruct (m !! cur) as [[perm|d]|]; try reflexivity.
    destruct (searchable perm); [|reflexivity].
    rewrite IH, <- !app_assoc. reflexivity.
Qed.

Lemma walk_lookup m cur rest n :
  walk m cur rest = inl n -> m !! (cur ++ rest) = Some n.
Proof.
  revert cur. induction rest as [|x rest IH]; intros cur; simpl.
  - rewrite app_nil_r. destruct (m !! cur); congruence.
  - destruct (m !! cur) as [[perm|d]|]; try discriminate.
    destruct (searchable perm); [|discriminate].
    intros H. apply IH in H. rewrite <- app_assoc in H. exact H.
Qed.

Lemma walk_prefix m cur a b n :
  walk m cur (a ++ b) = inl n -> b <> [] ->
  exists perm, walk m cur a = inl (Dir perm).
Proof.
  revert cur. induction a as [|y a IH]; intros cur; simpl.
  - destruct b as [|x b]; [congruence|]. simpl.
    destruct (m !! cur) as [[perm|d]|]; try discriminate. eauto.
  - destruct (m !! cur) as [[perm|d]|]; try discriminate.
    destruct (searchable perm); [|discriminate]. apply IH.
Qed.

Lemma walk_insert_short m p n cur rest :
  (length (cur ++ rest) < length p)%nat ->
  walk (<[p := n]> m) cur rest = walk m cur rest.
Proof.
  revert cur. induction rest as [|x rest IH]; intros cur Hlen; simpl.
  - rewrite lookup_insert_ne; [reflexivity|].
    intros ->. rewrite app_nil_r in Hlen. lia.
  - rewrite lookup_insert_ne.
    2:{ intros ->. rewrite length_app in Hlen. lia. }
    destruct (m !! cur) as [[perm|d]|]; try reflexivity.
    destruct (searchable perm); [|reflexivity].
    apply IH. rewrite <- app_assoc. exact Hlen.
Qed.

Lemma parent_snoc (p : path) x : parent (p ++ [x]) = p.
Proof. unfold parent. apply removelast_last. Qed.

Lemma path_snoc_inv (p : path) : p <> [] -> exists q x, p = q ++ [x].
Proof.
  intros Hp. destruct (exists_last Hp) as (q & x & ->). eauto.
Qed.

(** A successful [add_entry] under a missing name makes the name resolve
    to the new node and keeps every other entry. *)
Lemma add_entry_ok fs p n fs' :
  os_Stat fs p = inr ENOENT ->
  add_entry fs p n = (fs', None) ->
  os_Stat fs' p = inl n /\
  nodes fs !! p = None /\
  nodes fs' = <[p := n]> (nodes fs) /\
  umask fs' = umask fs.
Proof.
  unfold add_entry, os_Stat. intros Hst Hadd.
  destruct p as [|y p0]; [discriminate|].
  destruct (path_snoc_inv (y :: p0)) as (q & x & E); [discriminate|].
  rewrite E in *. clear E y p0.
  rewrite parent_snoc in Hadd.
  rewrite walk_snoc in Hst.
  destruct (walk (nodes fs) [] q) as [[pp|d]|e] eqn:Hq; try discriminate.
  destruct (writable pp); [|discriminate].
  injection Hadd as <-. simpl.
  destruct (searchable pp) eqn:Hs; [|discriminate].
  simpl in Hst.
  destruct (nodes fs !! (q ++ [x])) eqn:Hl; [discriminate|].
  repeat split; try reflexivity.
  rewrite walk_snoc, walk_insert_short, Hq, Hs.
  - simpl. rewrite lookup_insert_eq. reflexivity.
  - simpl. rewrite length_app. simpl. lia.
Qed.

Lemma os_Mkdir_ok fs p perm fs' :
  os_Mkdir fs p perm = (fs', None) ->
  os_Stat fs' p = inl (Dir (masked fs perm)) /\
  nodes fs !! p = None /\
  nodes fs' = <[p := Dir (masked fs perm)]> (nodes fs) /\
  umask fs' = umask fs.
Proof.
  unfold os_Mkdir. intros H.
  destruct (os_Stat fs p) as [n|e] eqn:Hst; [discriminate|].
  destruct e; try discriminate.
  eapply add_entry_ok; eassumption.
Qed.

Lemma os_Mkdir_err fs p perm fs' e :
  os_Mkdir fs p perm = (fs', Some e) -> fs' = fs.
Proof.
  unfold os_Mkdir, add_entry. intros H.
  destruct (os_Stat fs p) as [n|e0]; [congruence|].
  destruct e0; try congruence.
  destruct p; [congruence|].
  destruct (os_Stat fs (parent (s :: p))) as [[pp|d]|e0]; try congruence.
  destruct (writable pp); congruence.
Qed.

Lemma grows_by_dirs_refl perm p fs : grows_by_dirs perm p fs fs.
Proof.
  repeat split; try congruence; intros; congruence.
Qed.

Lemma grows_by_dirs_step perm p x fs fs1 fs2 :
  grows_by_dirs perm p fs fs1 ->
  nodes fs1 !! (p ++ [x]) = None ->
  nodes fs2 = <[p ++ [x] := Dir (masked fs1 perm)]> (nodes fs1) ->
  umask fs2 = umask fs1 ->
  grows_by_dirs perm (p ++ [x]) fs fs2.
Proof.
  intros (Ha & Hold & Hnew) Hmiss Hn Hav.
  assert (Hm : masked fs1 perm = masked fs perm)
    by (unfold masked; rewrite Ha; reflexivity).
  rewrite Hm in Hn. repeat split.
  - congruence.
  - intros q n Hq. rewrite Hn.
    destruct (decide (p ++ [x] = q)) as [<-|Hne].
    + apply Hold in Hq. congruence.
    + rewrite lookup_insert_ne by exact Hne. auto.
  - revert H0. rewrite Hn.
    destruct (decide (p ++ [x] = q)) as [<-|Hne].
    + rewrite lookup_insert_eq. congruence.
    + rewrite lookup_insert_ne by exact Hne. intros H1.
      apply (Hnew q n H) in H1. tauto.
  - revert H0. rewrite Hn.
    destruct (decide (p ++ [x] = q)) as [<-|Hne]; [reflexivity|].
    rewrite lookup_insert_ne by exact Hne. intros H1.
    apply (Hnew q n H) in H1. destruct H1 as [_ H1].
    etrans; [exact H1|]. apply prefix_app_r. reflexivity.
Qed.

Lemma MkdirAll_rev_grows perm rp : forall fs fs' e,
  MkdirAll_rev fs rp perm = (fs', e) -> grows_by_dirs perm (rev rp) fs fs'.
Proof.
  induction rp as [|x rp IH]; intros fs fs' e; simpl.
  - destruct (os_Stat fs []) as [[pp|d]|e0] eqn:Hst.
    1,2: intros [= <- <-]; apply grows_by_dirs_refl.
    destruct (os_Mkdir fs [] perm) as [fs2 [e2|]] eqn:Hmk.
    + apply os_Mkdir_err in Hmk as ->.
      rewrite Hst. intros [= <- <-]. apply grows_by_dirs_refl.
    + unfold os_Mkdir in Hmk. rewrite Hst in Hmk.
      destruct e0; discriminate.
  - destruct (os_Stat fs (rev rp ++ [x])) as [[pp|d]|e0] eqn:Hst.
    1,2: intros [= <- <-]; apply grows_by_dirs_refl.
    destruct (MkdirAll_rev fs rp perm) as [fs1 [e1|]] eqn:Hrec.
    + intros [= <- <-]. apply IH in Hrec.
      destruct Hrec as (Ha & Hold & Hnew). repeat split; auto.
      * eapply Hnew; eauto.
      * etrans; [eapply Hnew; eauto|]. apply prefix_app_r. reflexivity.
    + apply IH in Hrec.
      destruct (os_Mkdir fs1 (rev rp ++ [x]) perm) as [fs2 [e2|]] eqn:Hmk.
      * apply os_Mkdir_err in Hmk as ->.
        intros H. assert (fs' = fs1) as ->.
        { destruct (os_Stat fs1 (rev rp ++ [x])) as [[?|?]|?]; congruence. }
        clear H. destruct Hrec as (Ha & Hold & Hnew). repeat split; auto.
        -- eapply Hnew; eauto.
        -- etrans; [eapply Hnew; eauto|]. apply prefix_app_r. reflexivity.
      * intros [= <- <-]. apply os_Mkdir_ok in Hmk.
        destruct Hmk as (_ & Hmiss & Hn & Hav).
        eapply grows_by_dirs_step; eauto.
Qed.

Lemma MkdirAll_rev_ok perm rp fs fs' :
  MkdirAll_rev fs rp perm = (fs', None) ->
  exists pm, os_Stat fs' (rev rp) = inl (Dir pm).
Proof.
  destruct rp as [|x rp]; simpl.
  - destruct (os_Stat fs []) as [[pp|d]|e0] eqn:Hst.
    + intros [= <-]. eauto.
    + discriminate.
    + destruct (os_Mkdir fs [] perm) as [fs2 [e2|]] eqn:Hmk.
      * destruct (os_Stat fs2 []) as [[?|?]|?] eqn:Hst2; try discriminate.
        intros [= <-]. eauto.
      * intros [= <-]. apply os_Mkdir_ok in Hmk. destruct Hmk as [-> _]. eauto.
  - destruct (os_Stat fs (rev rp ++ [x])) as [[pp|d]|e0] eqn:Hst.
    + intros [= <-]. eauto.
    + discriminate.
    + destruct (MkdirAll_rev fs rp perm) as [fs1 [e1|]]; [discriminate|].
      destruct (os_Mkdir fs1 (rev rp ++ [x]) perm) as [fs2 [e2|]] eqn:Hmk.
      * destruct (os_Stat fs2 (rev rp ++ [x])) as [[?|?]|?] eqn:Hst2;
          try discriminate.
        intros [= <-]. eauto.
      * intros [= <-]. apply os_Mkdir_ok in Hmk. destruct Hmk as [-> _]. eauto.
Qed.

Lemma os_Stat_prefix fs (p q : path) n :
  os_Stat fs p = inl (Dir n) -> q `prefix_of` p ->
  exists pm, os_Stat fs q = inl (Dir pm).
Proof.
  intros Hst [k ->]. destruct k as [|x k].
  - rewrite app_nil_r in Hst. eauto.
  - eapply walk_prefix; [exact Hst|discriminate].
Qed.

(** C8, amended. What CreateDirIfNotExists does, for every path and
    every file system. When the path exists, the call succeeds and leaves
    the file system as it is. When [os.Stat] fails for another reason
    than that the path does not exist, the call succeeds as well and
    creates nothing. When [os.Stat] says that the path does not exist,
    the result is that of [os.MkdirAll]: no old entry changes, every
    entry that is new is a directory on the way to the path, of mode
    0755 less the umask, and, when the call returns no error, the path
    and each of its ancestors is a directory afterwards. And a call right
    after a call that returned no error returns no error and changes
    nothing. *)
Theorem CreateDirIfNotExists_idempotent (p : path) (fs : FS) :
  (forall n, os_Stat fs p = inl n -> CreateDirIfNotExists p fs = (fs, None)) /\
  (forall e, os_Stat fs p = inr e -> e <> ENOENT ->
     CreateDirIfNotExists p fs = (fs, None)) /\
  (os_Stat fs p = inr ENOENT ->
   forall fs' err, CreateDirIfNotExists p fs = (fs', err) ->
     os_MkdirAll fs p mode = (fs', err) /\
     grows_by_dirs mode p fs fs' /\
     (err = None ->
      forall q, q `prefix_of` p -> exists pm, os_Stat fs' q = inl (Dir pm))) /\
  (forall fs1, CreateDirIfNotExists p fs = (fs1, None) ->
     CreateDirIfNotExists p fs1 = (fs1, None)).
Proof.
  unfold CreateDirIfNotExists, os_MkdirAll. split; [|split; [|split]].
  - intros n ->. reflexivity.
  - intros e -> He. destruct e; try reflexivity. congruence.
  - intros -> fs' err. simpl.
    destruct (MkdirAll_rev fs (rev p) mode) as [fs2 err2] eqn:Hmk.
    intros Hres.
    assert (fs2 = fs' /\ err2 = err) as [-> ->]
      by (destruct err2; injection Hres as <- <-; auto).
    split; [reflexivity|]. split.
    + apply MkdirAll_rev_grows in Hmk.
      rewrite rev_involutive in Hmk. exact Hmk.
    + intros ->. apply MkdirAll_rev_ok in Hmk. destruct Hmk as [pm Hpm].
      rewrite rev_involutive in Hpm.
      intros q Hq. eapply os_Stat_prefix; eassumption.
  - intros fs1.
    destruct (os_IsNotExist (os_Stat fs p)) eqn:Hne.
    + destruct (MkdirAll_rev fs (rev p) mode) as [fs2 [e|]] eqn:Hmk;
        [discriminate|].
      intros [= <-]. apply MkdirAll_rev_ok in Hmk. destruct Hmk as [pm Hpm].
      rewrite rev_involutive in Hpm. rewrite Hpm. reflexivity.
    + intros [= <-]. rewrite Hne. reflexivity.
Qed.

(** C8, amended, on the path of the package's test, [testdata/myDir], in
    a file system that holds the root only, under the umask 022: the
    first call creates both directories with mode 0755, and the second
    call changes nothing. *)
Lemma CreateDirIfNotExists_idempotent_witness :
  let p := ["testdata"; "myDir"] in
  let fs0 := mkFS {[ [] := Dir mode ]} 4096 18 in
  let fs1 := mkFS (<[ p := Dir mode ]>
                     (<[ ["testdata"] := Dir mode ]> {[ [] := Dir mode ]})) 4096 18 in
  os_Stat fs0 p = inr ENOENT /\
  CreateDirIfNotExists p fs0 = (fs1, None) /\
  CreateDirIfNotExists p fs1 = (fs1, None) /\
  (forall q, q `prefix_of` p -> exists pm, os_Stat fs1 q = inl (Dir pm)).
Proof.
  intros p fs0 fs1.
  assert (H1 : CreateDirIfNotExists p fs0 = (fs1, None))
    by (vm_compute; reflexivity).
  destruct (CreateDirIfNotExists_idempotent p fs0)
    as (_ & _ & Hmissing & Htwice).
  split; [reflexivity|]. split; [exact H1|].
  split; [exact (Htwice fs1 H1)|].
  exact (proj2 (proj2 (Hmissing eq_refl fs1 None H1)) eq_refl).
Defined.

(** C8 as stated fails, in three ways. Under a root that may not be
    written, the path [myDir] is missing, the call does not create it
    and returns the error of [mkdir], and so does the second call right
    after it. A path that leads through the regular file [notes.txt] is
    missing as well, and there the call returns no error and creates
    nothing. And under the umask 077 the directory created has the mode
    0700, not 0755. *)
Lemma CreateDirIfNotExists_counterexample :
  (let fs0 := mkFS {[ [] := Dir 365 ]} 4096 18 in (* 0555 *)
   let first := CreateDirIfNotExists ["myDir"] fs0 in
   let second := CreateDirIfNotExists ["myDir"] (fst first) in
   os_Stat fs0 ["myDir"] = inr ENOENT /\
   first = (fs0, Some (fs_PathError "mkdir" ["myDir"] EACCES)) /\
   second = (fs0, Some (fs_PathError "mkdir" ["myDir"] EACCES))) /\
  (let fs0 := mkFS (<[ ["notes.txt"] := Regular [] ]> {[ [] := Dir mode ]}) 4096 18 in
   let p := ["notes.txt"; "myDir"] in
   os_Stat fs0 p = inr ENOTDIR /\
   CreateDirIfNotExists p fs0 = (fs0, None) /\
   os_Stat (fst (CreateDirIfNotExists p fs0)) p = inr ENOTDIR) /\
  (let fs0 := mkFS {[ [] := Dir mode ]} 4096 63 in (* umask 077 *)
   let fs1 := fst (CreateDirIfNotExists ["myDir"] fs0) in
   snd (CreateDirIfNotExists ["myDir"] fs0) = None /\
   os_Stat fs1 ["myDir"] = inl (Dir 448) /\ (* 0700 *)
   448 <> mode).
Proof.
  split; [|split]; vm_compute; repeat split; discriminate.
Qed.

(** ** UploadFiles and UploadOneFile *)

Section UploadFacts.

Variable DetectContentType : list byte -> string.
Variable EqualFold : string -> string -> bool.

(** The function literal returns a nil list with every error. *)
Lemma upload_file_error_nil t dir rn hdr acc w files e w' :
  upload_file DetectContentType EqualFold t dir rn hdr acc w =
    Ret (files, Some e, w') ->
  files = [].
Proof.
  unfold upload_file. intros H.
  destruct (Open hdr) as [infile|err]; [|congruence].
  destruct (File_Read infile 512) as [[[buff n] [err|]] infile1]; [congruence|].
  destruct (negb (type_allowed EqualFold t (DetectContentType buff)));
    [congruence|].
  destruct (File_Seek infile1 0) as [[off [err|]] infile2]; [congruence|].
  destruct rn; simpl in H.
  - destruct (RandomString 25 (entropy w)) as [[s src]|why]; simpl in H;
      [|discriminate].
    destruct (os_Create _ _) as [fs1 [err|]]; [congruence|].
    destruct (io_Copy _ _ _) as [[fs2 size] [err|]]; congruence.
  - destruct (os_Create _ _) as [fs1 [err|]]; [congruence|].
    destruct (io_Copy _ _ _) as [[fs2 size] [err|]]; congruence.
Qed.

Lemma range_headers_error_nil t dir rn hdrs : forall acc w files e w',
  range_headers DetectContentType EqualFold t dir rn hdrs acc w =
    Ret (files, Some e, w') ->
  files = [].
Proof.
  induction hdrs as [|hdr rest IH]; intros acc w files e w'; simpl.
  - congruence.
  - destruct (upload_file DetectContentType EqualFold t dir rn hdr acc w)
      as [[[acc1 [e1|]] w1]|why] eqn:Hup;
      simpl; try discriminate.
    + intros [= <- <- <-]. eapply upload_file_error_nil, Hup.
    + apply IH.
Qed.

Lemma range_form_error_nil t dir rn groups : forall acc w files e w',
  range_form DetectContentType EqualFold t dir rn groups acc w =
    Ret (files, Some e, w') ->
  files = [].
Proof.
  induction groups as [|[name hdrs] rest IH]; intros acc w files e w'; simpl.
  - congruence.
  - destruct (range_headers DetectContentType EqualFold t dir rn hdrs acc w)
      as [[[acc1 [e1|]] w1]|why] eqn:Hrh;
      simpl; try discriminate.
    + intros [= <- <- <-]. eapply range_headers_error_nil, Hrh.
    + apply IH.
Qed.

(** Whenever [UploadFiles] returns an error, the list it returns with
    it is nil: the records of the files persisted before are lost. *)
Lemma UploadFiles_error_nil t r dir rename w files e t' w' :
  UploadFiles DetectContentType EqualFold t r dir rename w =
    Ret (files, Some e, t', w') ->
  files = [].
Proof.
  unfold UploadFiles.
  destruct (CreateDirIfNotExists dir (fs w)) as [fs1 [err|]]; [congruence|].
  destruct (ParseMultipartForm r _) as [form|err]; [|congruence].
  destruct (range_form DetectContentType EqualFold _ dir _ (File form) [] _)
    as [[[acc1 e1] w1]|why] eqn:Hrf;
    simpl; [|discriminate].
  intros [= <- -> <- <-]. eapply range_form_error_nil, Hrf.
Qed.

(** A form without file parts leaves the loops at once. *)
Lemma range_form_no_files t dir rn groups acc w :
  Forall (fun g => snd g = []) groups ->
  range_form DetectContentType EqualFold t dir rn groups acc w = Ret (acc, None, w).
Proof.
  induction 1 as [|[name hdrs] rest Hg _ IH]; [reflexivity|].
  simpl in Hg. subst hdrs. simpl. exact IH.
Qed.

(** C4. Whatever error the multipart parse fails with, UploadFiles
    answers with the one error "the uploaded file is too big". *)
Theorem UploadFiles_parse_error t r dir rename w fs1 e :
  CreateDirIfNotExists dir (fs w) = (fs1, None) ->
  ParseMultipartForm r (MaxFileSize (defaulted t)) = inr e ->
  UploadFiles DetectContentType EqualFold t r dir rename w =
  Ret ([], Some (errorString "the uploaded file is too big"),
       defaulted t, mkWorld fs1 (entropy w)).
Proof.
  intros HC HP. unfold UploadFiles.
  rewrite HC, HP. reflexivity.
Qed.

(** C10. On a request that parses to a form without any file part,
    UploadFiles returns an empty list and no error, and UploadOneFile
    then indexes that list at 0 and panics. *)
Theorem UploadOneFile_no_file_panics t r dir rename w fs1 form :
  CreateDirIfNotExists dir (fs w) = (fs1, None) ->
  ParseMultipartForm r (MaxFileSize (defaulted t)) = inl form ->
  Forall (fun g => snd g = []) (File form) ->
  UploadFiles DetectContentType EqualFold t r dir rename w =
    Ret ([], None, defaulted t, mkWorld fs1 (entropy w)) /\
  UploadOneFile DetectContentType EqualFold t r dir rename w =
    Panic "index out of range [0] with length 0".
Proof.
  intros HC HP Hnone.
  assert (HU : forall rn, UploadFiles DetectContentType EqualFold t r dir rn w =
                 Ret ([], None, defaulted t, mkWorld fs1 (entropy w))).
  { intros rn. unfold UploadFiles. rewrite HC, HP.
    rewrite range_form_no_files by exact Hnone. reflexivity. }
  split; [apply HU|].
  unfold UploadOneFile. rewrite HU. reflexivity.
Qed.

End UploadFacts.

(** C1, on a batch of two files of which the second is empty. The first
    file alone is uploaded and recorded. In the batch it is written to
    disk as before; the read of the second file then fails with io.EOF,
    and UploadFiles returns that error with a nil list, not with the
    record of the first file. *)
Theorem UploadFiles_partial_list_lost :
  (exists t' w',
     UploadFiles sample_DetectContentType sample_EqualFold sample_tools
       (request_with [png_part]) ["uploads"] [false] sample_world =
     Ret ([mkUploadedFile "img.png" "img.png" 12], None, t', w')) /\
  (exists t' w',
     UploadFiles sample_DetectContentType sample_EqualFold sample_tools
       (request_with [png_part; empty_part]) ["uploads"] [false] sample_world =
     Ret ([], Some io_EOF, t', w') /\
     nodes (fs w') !! ["uploads"; "img.png"] =
       Some (Regular (png_signature ++ [0; 0; 0; 13]))).
Proof.
  split.
  - eexists _, _. vm_compute. reflexivity.
  - eexists _, _. split; vm_compute; reflexivity.
Qed.

(** C4 on a request that is not multipart at all: the parse fails with
    http.ErrNotMultipart, and UploadFiles reports a file that is too big. *)
Lemma UploadFiles_parse_error_witness :
  UploadFiles sample_DetectContentType sample_EqualFold sample_tools
    (mkRequest (fun _ => inr http_ErrNotMultipart)) ["uploads"] [] sample_world =
  Ret ([], Some (errorString "the uploaded file is too big"),
       defaulted sample_tools, sample_world).
Proof.
  exact (UploadFiles_parse_error sample_DetectContentType sample_EqualFold
           sample_tools (mkRequest (fun _ => inr http_ErrNotMultipart))
           ["uploads"] [] sample_world sample_fs http_ErrNotMultipart
           eq_refl eq_refl).
Defined.

(** C10 on a multipart request that carries a text field and no file. *)
Lemma UploadOneFile_no_file_panics_witness :
  UploadOneFile sample_DetectContentType sample_EqualFold sample_tools
    (mkRequest (fun _ => inl (mkForm [("name", ["x"])] []))) ["uploads"] [true]
    sample_world =
  Panic "index out of range [0] with length 0".
Proof.
  exact (proj2 (UploadOneFile_no_file_panics sample_DetectContentType
                  sample_EqualFold sample_tools
                  (mkRequest (fun _ => inl (mkForm [("name", ["x"])] [])))
                  ["uploads"] [true] sample_world sample_fs
                  (mkForm [("name", ["x"])] []) eq_refl eq_refl
                  (List.Forall_nil _))).
Defined.

(** ** Slugify *)

Section SlugifyFacts.

Variable unicode_lower : rune -> rune.

(** [maximal_runs] does divide the text into maximal runs: the blocks
    give back the text, no block is empty, a block holds runes of its
    kind only, and neighbours differ in kind. *)
Lemma maximal_runs_head r rest :
  exists b bs, maximal_runs (r :: rest) = (in_class r, r :: b) :: bs.
Proof.
  simpl. destruct (maximal_runs rest) as [|[k b] bs]; [eauto|].
  destruct (Bool.eqb k (in_class r)) eqn:E; [|eauto].
  apply Bool.eqb_prop in E. subst k. eauto.
Qed.

Lemma maximal_runs_concat s :
  concat (map snd (maximal_runs s)) = s.
Proof.
  induction s as [|r rest IH]; [reflexivity|]. simpl.
  destruct (maximal_runs rest) as [|[k b] bs]; simpl in *.
  - now rewrite <- IH.
  - destruct (Bool.eqb k (in_class r)); simpl; now rewrite <- IH.
Qed.

Lemma maximal_runs_blocks s :
  Forall (fun kb => snd kb <> [] /\ Forall (fun r => in_class r = fst kb) (snd kb))
         (maximal_runs s).
Proof.
  induction s as [|r rest IH]; [constructor|]. simpl.
  destruct (maximal_runs rest) as [|[k b] bs].
  - repeat constructor. discriminate.
  - inversion IH as [|? ? [Hne Hk] Hbs]; subst. simpl in *.
    destruct (Bool.eqb k (in_class r)) eqn:E.
    + apply Bool.eqb_prop in E.
      constructor; [|exact Hbs]. simpl. split; [discriminate|].
      constructor; [now symmetry|exact Hk].
    + constructor; [|exact IH]. simpl. split; [discriminate|].
      repeat constructor.
Qed.

Lemma maximal_runs_alternating s : alternating (maximal_runs s).
Proof.
  induction s as [|r rest IH]; [exact I|]. simpl.
  destruct (maximal_runs rest) as [|[k b] bs]; [exact I|].
  destruct (Bool.eqb k (in_class r)) eqn:E.
  - destruct bs as [|[k' b'] bs']; [exact I|]. exact IH.
  - split; [|exact IH]. intros <-.
    now rewrite Bool.eqb_reflx in E.
Qed.

(** How [collapse_runs] and the replacement read one more rune. *)
Lemma collapse_runs_cons r rest :
  collapse_runs (r :: rest) =
  if in_class r then r :: collapse_runs rest
  else match rest with
       | [] => [hyphen]
       | r' :: _ =>
           if in_class r' then hyphen :: collapse_runs rest
           else collapse_runs rest
       end.
Proof.
  unfold collapse_runs.
  destruct rest as [|r' rest'].
  - simpl. destruct (in_class r); reflexivity.
  - destruct (maximal_runs_head r' rest') as (b & bs & E).
    change (maximal_runs (r :: r' :: rest')) with
      (match maximal_runs (r' :: rest') with
       | (k, b) :: bs =>
           if Bool.eqb k (in_class r) then (k, r :: b) :: bs
           else (in_class r, [r]) :: (k, b) :: bs
       | [] => [(in_class r, [r])]
       end).
    rewrite E.
    destruct (in_class r) eqn:Hr, (in_class r') eqn:Hr'; reflexivity.
Qed.

Lemma skip_match_spec rest :
  hyphen :: skip_match rest =
  match rest with
  | [] => [hyphen]
  | r' :: _ =>
      if in_class r' then hyphen :: ReplaceAllString rest
      else ReplaceAllString rest
  end.
Proof.
  destruct rest as [|r' rest']; [reflexivity|]. simpl.
  destruct (in_class r'); reflexivity.
Qed.

Lemma ReplaceAllString_collapse s : ReplaceAllString s = collapse_runs s.
Proof.
  induction s as [|r rest IH]; [reflexivity|].
  rewrite collapse_runs_cons. simpl.
  destruct (in_class r).
  - now rewrite IH.
  - rewrite skip_match_spec. destruct rest as [|r' rest']; [reflexivity|].
    rewrite IH. reflexivity.
Qed.

Lemma strings_TrimLeft_hyphen s :
  strings_TrimLeft s (runes "-") = trim_leading_hyphens s.
Proof.
  induction s as [|r rest IH]; [reflexivity|]. simpl.
  rewrite <- IH. change (runes "-") with [hyphen].
  destruct (Z.eqb_spec r hyphen) as [->|Hne].
  - rewrite bool_decide_eq_true_2; [reflexivity|]. apply list_elem_of_singleton. reflexivity.
  - rewrite bool_decide_eq_false_2; [reflexivity|].
    rewrite list_elem_of_singleton. exact Hne.
Qed.

Lemma trim_trailing_hyphens_snoc s r :
  trim_trailing_hyphens (s ++ [r]) =
  if r =? hyphen then trim_trailing_hyphens s else s ++ [r].
Proof.
  induction s as [|x rest IH]; simpl.
  - destruct (r =? hyphen); reflexivity.
  - rewrite IH. destruct (r =? hyphen); [reflexivity|].
    destruct rest; reflexivity.
Qed.

Lemma strings_TrimRight_hyphen s :
  strings_TrimRight s (runes "-") = trim_trailing_hyphens s.
Proof.
  unfold strings_TrimRight.
  induction s as [|r rest IH] using rev_ind; [reflexivity|].
  rewrite rev_unit, trim_trailing_hyphens_snoc.
  rewrite strings_TrimLeft_hyphen in *. simpl.
  destruct (r =? hyphen); [exact IH|].
  simpl. now rewrite rev_involutive.
Qed.

(** C6. Slugify does what the specification says: it fails with
    EmptyInput on the empty string; otherwise it lower-cases the input,
    replaces every maximal run of runes that are not an ASCII lower-case
    letter or digit by one hyphen and trims the hyphens at both ends,
    failing with EmptyResult when nothing is left; and it maps the
    sentence of the specification to the slug given there. *)
Theorem Slugify_spec :
  (forall s, Slugify unicode_lower s = slugify_spec unicode_lower s) /\
  Slugify unicode_lower
    (runes "now, is the time to GO HIT the gym!! and break***some+++records?!") =
  (runes "now-is-the-time-to-go-hit-the-gym-and-break-some-records", None).
Proof.
  split; [|reflexivity].
  intros s. unfold Slugify, slugify_spec, strings_Trim.
  destruct s as [|r rest]; [reflexivity|].
  rewrite decide_False by discriminate.
  rewrite strings_TrimRight_hyphen, strings_TrimLeft_hyphen,
    ReplaceAllString_collapse.
  destruct (trim_trailing_hyphens _); reflexivity.
Qed.

End SlugifyFacts.

(** ** ReadJSON *)

Section JSONFacts.

Variable any : Type.
Variable empty_struct : any.
Variable json_Marshal : any -> list byte + error.
Variable json_Decode : Decoder -> any -> option error * Decoder.
Variable fmt_Sprintf : string -> list (Z + string) -> string.
Variable http_NewRequest : string -> string -> list byte -> ClientRequest + error.
Variable http_DefaultClient : ClientRequest -> Response + error.

(** C3. Once the first Decode has succeeded, ReadJSON decodes a second
    value from what is left of the stream, and it returns the error
    "body must contain only one JSON value" exactly when that second
    Decode yields anything but io.EOF; when it yields io.EOF, as for a
    body that holds one JSON value and nothing else, ReadJSON returns no
    error. *)
Theorem ReadJSON_single_value t body data d1 err2 d2 :
  json_Decode (ReadJSON_decoder t body) data = (None, d1) ->
  json_Decode d1 empty_struct = (err2, d2) ->
  (ReadJSON any empty_struct json_Decode fmt_Sprintf t body data =
     Some (errorString "body must contain only one JSON value")
   <-> err2 <> Some io_EOF) /\
  (err2 = Some io_EOF ->
   ReadJSON any empty_struct json_Decode fmt_Sprintf t body data = None).
Proof.
  intros H1 H2. unfold ReadJSON. rewrite H1, H2.
  destruct (decide (err2 = Some io_EOF)) as [->|Hne].
  - rewrite bool_decide_eq_true_2 by reflexivity. simpl.
    split; [|reflexivity]. split; [discriminate|congruence].
  - rewrite bool_decide_eq_false_2 by exact Hne. simpl.
    split; [|congruence]. split; [intros _; exact Hne|reflexivity].
Qed.

(** ** WriteJSON *)

Lemma CanonicalMIMEHeaderKey_Content_Type :
  CanonicalMIMEHeaderKey "Content-Type" = "Content-Type".
Proof. reflexivity. Qed.

(** After the loop over the caller's map, a key of that map has the
    caller's value, and any other key the value it had. *)
Lemma copy_headers_lookup (from to : gmap string (list string)) key :
  copy_headers from to !! key =
  match from !! key with
  | Some value => Some value
  | None => to !! key
  end.
Proof.
  unfold copy_headers.
  apply (map_fold_weak_ind
           (fun r m => r !! key = match m !! key with
                                  | Some value => Some value
                                  | None => to !! key
                                  end)).
  - rewrite lookup_empty. reflexivity.
  - intros i x m r Hi IH.
    destruct (decide (i = key)) as [->|Hne].
    + rewrite !lookup_insert_eq. reflexivity.
    + rewrite !lookup_insert_ne by exact Hne. exact IH.
Qed.

(** C5, amended. When the payload can be serialized and the status has
    three digits (or a header was sent before, so that the status is not
    looked at), WriteJSON returns, and the header map of the response
    holds application/json under the key Content-Type, whatever the
    caller supplied under that key; under every other key it holds the
    caller's values where the caller supplied some, and the values the
    response already had elsewhere. Keys are compared as they are
    spelled. Unless a header was sent before, this map is sent with the
    given status when that is a final one, from 200 on. *)
Theorem WriteJSON_headers writer status data out h0 more :
  json_Marshal data = inl out ->
  (sent writer = None -> 100 <= status <= 999) ->
  exists err writer',
    WriteJSON any json_Marshal writer status data (h0 :: more) = Ret (err, writer') /\
    header writer' !! "Content-Type" = Some ["application/json"] /\
    (forall key, key <> "Content-Type" ->
       header writer' !! key =
       match h0 !! key with
       | Some value => Some value
       | None => header writer !! key
       end) /\
    (sent writer = None -> 200 <= status ->
     sent writer' = Some (status, header writer')).
Proof.
  intros HM Hstatus.
  assert (Hres : exists err writer',
             WriteJSON any json_Marshal writer status data (h0 :: more) =
               Ret (err, writer') /\
             header writer' =
               <["Content-Type" := ["application/json"]]>
                 (copy_headers h0 (header writer)) /\
             (sent writer = None -> sent writer' = Some (status, header writer'))).
  { unfold WriteJSON, WriteHeader, checkWriteHeaderCode, Write, send_header,
      Header_Set.
    rewrite HM, CanonicalMIMEHeaderKey_Content_Type.
    cbn [sent header written write_error].
    destruct (sent writer) as [old|] eqn:Hs.
    - cbn [mbind outcome_bind sent header written write_error]. rewrite ?Hs.
      destruct (write_error writer) as [[k e]|]; eexists _, _;
        (split; [reflexivity|]); split; solve [reflexivity | discriminate].
    - destruct (Hstatus eq_refl) as [Hlo Hhi].
      apply Z.ltb_ge in Hlo. apply Z.ltb_ge in Hhi. rewrite Hlo, Hhi.
      cbn [orb mbind outcome_bind sent header written write_error].
      destruct (write_error writer) as [[k e]|]; eexists _, _;
        (split; [reflexivity|]); split; reflexivity. }
  destruct Hres as (err & writer' & Hret & Hhdr & Hsent).
  exists err, writer'. split; [exact Hret|]. rewrite Hhdr.
  split; [|split].
  - apply lookup_insert_eq.
  - intros key Hkey.
    rewrite lookup_insert_ne by congruence. apply copy_headers_lookup.
  - intros Hnone _. rewrite <- Hhdr. exact (Hsent Hnone).
Qed.

(** ** PushJSONToRemote *)

(** C9, amended. When the payload can be serialized, the request can be
    built and the client answers, PushJSONToRemote returns the client's
    response with its status code and no error; it has read nothing
    from the body, whose content and read position are as the client
    left them, but it has closed the body. *)
Theorem PushJSONToRemote_closes_body uri data client more jsonData request response :
  json_Marshal data = inl jsonData ->
  http_NewRequest "POST" uri jsonData = inl request ->
  client (mkClientRequest (Method request) (URL request)
            (Header_Set (request_Header request) "Content-Type" "application/json")
            (request_Body request)) = inl response ->
  exists response',
    PushJSONToRemote any json_Marshal http_NewRequest http_DefaultClient
      uri data (client :: more) = (Some response', StatusCode response, None) /\
    StatusCode response' = StatusCode response /\
    response_Header response' = response_Header response /\
    payload (response_Body response') = payload (response_Body response) /\
    consumed (response_Body response') = consumed (response_Body response) /\
    closed (response_Body response') = true.
Proof.
  intros HM HR HC. unfold PushJSONToRemote. rewrite HM, HR, HC.
  eexists. split; [reflexivity|]. simpl. repeat split; reflexivity.
Qed.

End JSONFacts.

(** C3 on the bodies of the package's tests, with the sample decoder: one
    JSON value passes, two values in a row are refused. *)
Lemma ReadJSON_single_value_witness :
  ReadJSON (list byte) [] sample_Decode sample_Sprintf sample_tools body_good [] = None /\
  ReadJSON (list byte) [] sample_Decode sample_Sprintf sample_tools body_two [] =
    Some (errorString "body must contain only one JSON value").
Proof.
  split.
  - refine (proj2 (ReadJSON_single_value (list byte) [] sample_Decode
                     sample_Sprintf sample_tools body_good []
                     (mkDecoder (mkReader [] io_EOF) true) (Some io_EOF)
                     (mkDecoder (mkReader [] io_EOF) true) _ _) eq_refl);
      vm_compute; reflexivity.
  - refine (proj2 (proj1 (ReadJSON_single_value (list byte) [] sample_Decode
                     sample_Sprintf sample_tools body_two []
                     (mkDecoder (mkReader (skipn 12 body_two) io_EOF) true) None
                     (mkDecoder (mkReader [] io_EOF) true) _ _)) _);
      [vm_compute; reflexivity | vm_compute; reflexivity | discriminate].
Defined.

(** C5, amended, on the request of the package's test: the header FOO
    of the caller is in the response, beside the content type. *)
Lemma WriteJSON_headers_witness :
  exists err writer',
    WriteJSON (list byte) sample_Marshal sample_writer 200 (runes "{}")
      [ {[ "FOO" := ["BAR"] ]} ] = Ret (err, writer') /\
    header writer' !! "Content-Type" = Some ["application/json"] /\
    header writer' !! "FOO" = Some ["BAR"] /\
    sent writer' = Some (200, header writer').
Proof.
  destruct (WriteJSON_headers (list byte) sample_Marshal sample_writer 200
              (runes "{}") (runes "{}") {[ "FOO" := ["BAR"] ]} [] eq_refl
              ltac:(lia))
    as (err & writer' & Hret & Hct & Hother & Hsent).
  exists err, writer'. split; [exact Hret|]. split; [exact Hct|].
  split; [|exact (Hsent eq_refl ltac:(lia))].
  exact (Hother "FOO" ltac:(discriminate)).
Defined.

(** C5 as stated fails, in three ways. A Content-Type supplied by the
    caller does not reach the response, which carries application/json
    instead. With a payload that cannot be serialized, no header of the
    caller reaches the response at all. And with the status 0 there is
    no response: [WriteHeader] panics. *)
Lemma WriteJSON_content_type_counterexample :
  (let caller : gmap string (list string) := {[ "Content-Type" := ["text/plain"] ]} in
   exists writer',
     WriteJSON (list byte) sample_Marshal sample_writer 200 (runes "{}") [caller] =
       Ret (None, writer') /\
     caller !! "Content-Type" = Some ["text/plain"] /\
     header writer' !! "Content-Type" <> caller !! "Content-Type" /\
     sent writer' = Some (200, {[ "Content-Type" := ["application/json"] ]})) /\
  (let caller : gmap string (list string) := {[ "FOO" := ["BAR"] ]} in
   let unsupported := errorString "json: unsupported type: chan int" in
   exists writer',
     WriteJSON (list byte) (failing_Marshal unsupported) sample_writer 200 [] [caller] =
       Ret (Some unsupported, writer') /\
     header writer' !! "FOO" = None /\ sent writer' = None) /\
  WriteJSON (list byte) sample_Marshal sample_writer 0 (runes "{}")
    [ {[ "FOO" := ["BAR"] ]} ] = Panic "invalid WriteHeader code 0".
Proof.
  split; [|split].
  - eexists. split; [vm_compute; reflexivity|].
    vm_compute. repeat split; discriminate.
  - eexists. split; [vm_compute; reflexivity|]. vm_compute. split; reflexivity.
  - vm_compute. reflexivity.
Qed.

(** C9, amended, on the client of the package's test. *)
Lemma PushJSONToRemote_closes_body_witness :
  exists response',
    PushJSONToRemote (list byte) sample_Marshal sample_NewRequest sample_client
      "http://example.com/some/path" (runes "{}") [sample_client] =
      (Some response', 200, None) /\
    payload (response_Body response') = runes "ok" /\
    consumed (response_Body response') = 0%nat /\
    closed (response_Body response') = true.
Proof.
  destruct (PushJSONToRemote_closes_body (list byte) sample_Marshal
              sample_NewRequest sample_client "http://example.com/some/path"
              (runes "{}") sample_client [] (runes "{}")
              (mkClientRequest "POST" "http://example.com/some/path" ∅ (runes "{}"))
              (mkResponse 200 ∅ (mkBody (runes "ok") 0 false))
              eq_refl eq_refl eq_refl)
    as (response' & Hcall & _ & _ & Hpayload & Hconsumed & Hclosed).
  exists response'. auto.
Defined.

(** C9 as stated fails: the client hands over an open body, and the
    response that PushJSONToRemote returns has its body closed. *)
Lemma PushJSONToRemote_body_counterexample :
  closed (response_Body (mkResponse 200 ∅ (mkBody (runes "ok") 0 false))) = false /\
  PushJSONToRemote (list byte) sample_Marshal sample_NewRequest sample_client
    "http://example.com/some/path" (runes "{}") [sample_client] =
  (Some (mkResponse 200 ∅ (mkBody (runes "ok") 0 true)), 200, None).
Proof.
  split; reflexivity.
Qed.

(** ** Further properties of RandomString *)

Lemma RandomString_loop_inv (r : list rune) (n : nat) : forall src s src',
  RandomString_loop r n src = Ret (s, src') ->
  exists ps, src = map Some ps ++ src' /\ length ps = n /\
    Forall2 (fun c p =>
               r !! Z.to_nat (Uint64 p mod Z.of_nat (length r)) = Some c) s ps.
Proof.
  induction n as [|n IH]; intros src s src'; simpl.
  - intros [= <- <-]. exists []. repeat split. constructor.
  - destruct src as [|[p|] src1]; simpl; try discriminate.
    destruct (Z.of_nat (length r) =? 0); [discriminate|].
    destruct (r !! Z.to_nat (Uint64 p mod Z.of_nat (length r))) as [c|] eqn:Hc;
      [|discriminate].
    destruct (RandomString_loop r n src1) as [[s1 src2]|why] eqn:Hrec;
      simpl; [|discriminate].
    intros [= <- <-].
    destruct (IH _ _ _ Hrec) as (ps & -> & Hlen & Hall).
    exists (p :: ps). repeat split.
    + simpl. now rewrite Hlen.
    + constructor; assumption.
Qed.

(** Whenever RandomString returns, the length asked for is not negative,
    exactly that many reads of the entropy source were made and all of
    them succeeded, and each character is the one of randomStringSource
    at the index that is the prime read, reduced modulo 2^64 and then
    modulo 64. *)
Theorem RandomString_returns_inv n src s src' :
  RandomString n src = Ret (s, src') ->
  0 <= n /\
  exists ps, src = map Some ps ++ src' /\ Z.of_nat (length ps) = n /\
    Forall2 (fun c p =>
               runes randomStringSource !! Z.to_nat ((p mod 2 ^ 64) mod 64) = Some c)
            s ps.
Proof.
  unfold RandomString. destruct (Z.ltb_spec n 0) as [|Hn]; [discriminate|].
  intros H. split; [exact Hn|].
  destruct (RandomString_loop_inv _ _ _ _ _ H) as (ps & -> & Hlen & Hall).
  exists ps. repeat split; [lia|exact Hall].
Qed.

Lemma RandomString_returns_inv_witness :
  0 <= 2 /\
  exists ps, [Some 7; Some 130; None] = map Some ps ++ [None] /\
    Z.of_nat (length ps) = 2 /\
    Forall2 (fun c p =>
               runes randomStringSource !! Z.to_nat ((p mod 2 ^ 64) mod 64) = Some c)
            (runes "hc") ps.
Proof.
  apply (RandomString_returns_inv 2 [Some 7; Some 130; None] (runes "hc") [None]).
  reflexivity.
Defined.

(** When one of the reads that RandomString needs fails, or the source
    runs dry before, RandomString panics on the nil prime: it never
    returns a shorter string or one drawn from another source. *)
Theorem RandomString_failed_read_panics n (ps : list Z) (rest : PrimeSource) :
  Z.of_nat (length ps) < n ->
  RandomString n (map Some ps ++ None :: rest) =
    Panic "invalid memory address or nil pointer dereference" /\
  RandomString n (map Some ps) =
    Panic "invalid memory address or nil pointer dereference".
Proof.
  intros Hlen. unfold RandomString.
  destruct (Z.ltb_spec n 0) as [|_]; [lia|].
  assert (Hn : (length ps < Z.to_nat n)%nat) by lia.
  generalize dependent (Z.to_nat n). clear Hlen n.
  induction ps as [|p ps IH]; intros n Hn.
  - destruct n as [|n]; [simpl in Hn; lia|]. split; reflexivity.
  - destruct n as [|n]; [simpl in Hn; lia|].
    destruct (IH n ltac:(simpl in Hn; lia)) as [IH1 IH2].
    assert (Hc : exists c, runes randomStringSource !!
                   Z.to_nat (Uint64 p mod 64) = Some c).
    { apply lookup_lt_is_Some_2. rewrite length_randomStringSource.
      pose proof (Z.mod_pos_bound (Uint64 p) 64 ltac:(lia)). lia. }
    destruct Hc as [c Hc].
    cbn [RandomString_loop rand_Prime map app].
    rewrite length_randomStringSource. change (Z.of_nat 64) with 64.
    change (64 =? 0) with false. cbv iota. rewrite Hc, IH1, IH2.
    split; reflexivity.
Qed.

Lemma RandomString_failed_read_panics_witness :
  RandomString 25 (map Some [3; 5] ++ None :: [Some 7]) =
    Panic "invalid memory address or nil pointer dereference" /\
  RandomString 25 (map Some [3; 5]) =
    Panic "invalid memory address or nil pointer dereference".
Proof.
  apply (RandomString_failed_read_panics 25 [3; 5] [Some 7]).
  simpl. lia.
Defined.

(** ** Further properties of UploadFiles and UploadOneFile *)

Lemma os_Create_ok fs0 p fs1 :
  os_Create fs0 p = (fs1, None) -> nodes fs1 !! p = Some (Regular []).
Proof.
  unfold os_Create, add_entry.
  destruct (os_Stat fs0 p) as [[pm|old]|e]; try discriminate.
  - intros [= <-]. simpl. apply lookup_insert_eq.
  - destruct e; try discriminate.
    destruct p as [|x p]; [discriminate|].
    destruct (os_Stat fs0 (parent (x :: p))) as [[pp|d]|e]; try discriminate.
    destruct (writable pp); [|discriminate].
    intros [= <-]. simpl. apply lookup_insert_eq.
Qed.

Lemma write_file_ok fs1 p data fs2 n :
  nodes fs1 !! p = Some (Regular []) ->
  write_file fs1 p data = (fs2, n, None) ->
  n = Z.of_nat (length data) /\ nodes fs2 !! p = Some (Regular data).
Proof.
  unfold write_file. intros ->.
  destruct (Z.of_nat (length data) <=? avail fs1); [|discriminate].
  intros [= <- <-]. split; [reflexivity|]. simpl. apply lookup_insert_eq.
Qed.

Section UploadMore.

Variable DetectContentType : list byte -> string.
Variable EqualFold : string -> string -> bool.

(** The loop over the allow-list finds a match exactly when the list has
    an entry that is equal to the sniffed type under case folding; an
    empty list allows every type. *)
Theorem type_allowed_iff t fileType :
  type_allowed EqualFold t fileType = true <->
  AllowedFileTypes t = [] \/
  exists typeOfFile, typeOfFile ∈ AllowedFileTypes t /\
                     EqualFold fileType typeOfFile = true.
Proof.
  unfold type_allowed.
  assert (Hfold : forall l b,
            fold_left (fun allowed ty => if EqualFold fileType ty then true else allowed)
                      l b = true <->
            b = true \/ exists ty, ty ∈ l /\ EqualFold fileType ty = true).
  { induction l as [|x l IH]; intros b; simpl.
    - split; [auto|]. intros [H|(ty & Hin & _)]; [exact H|]. inversion Hin.
    - rewrite IH. split.
      + intros [H|(ty & Hin & Hty)].
        * destruct (EqualFold fileType x) eqn:Hx; [|auto].
          right. exists x. split; [left|exact Hx].
        * right. exists ty. split; [right; exact Hin|exact Hty].
      + intros [->|(ty & Hin & Hty)].
        * left. destruct (EqualFold fileType x); reflexivity.
        * apply elem_of_cons in Hin as [->|Hin].
          -- left. rewrite Hty. reflexivity.
          -- right. eauto. }
  destruct (AllowedFileTypes t) as [|x l] eqn:Hl.
  - simpl. split; auto.
  - change (0 <? length (x :: l))%nat with true. cbv iota.
    rewrite Hfold. split.
    + intros [H|H]; [discriminate|right; exact H].
    + intros [H|H]; [discriminate|right; exact H].
Qed.

(** What a successful run of the function literal has done. *)
Lemma upload_file_ok_inv t dir rn hdr acc w files w' :
  upload_file DetectContentType EqualFold t dir rn hdr acc w =
    Ret (files, None, w') ->
  exists f name,
    Open hdr = inl f /\
    drop (offset f) (content f) <> [] /\
    files = acc ++ [mkUploadedFile name (Filename hdr)
                      (Z.of_nat (length (content f)))] /\
    nodes (fs w') !! filepath_Join dir name = Some (Regular (content f)) /\
    (if rn
     then exists s, RandomString 25 (entropy w) = Ret (s, entropy w') /\
                    name = string_of_runes s +:+ filepath_Ext (Filename hdr)
     else name = Filename hdr /\ entropy w' = entropy w).
Proof.
  unfold upload_file. intros H.
  destruct (Open hdr) as [f|err]; [|discriminate].
  unfold File_Read in H.
  destruct (drop (offset f) (content f)) as [|b rest] eqn:Hdrop; [discriminate|].
  cbv zeta in H. cbn [fst snd] in H.
  destruct (negb (type_allowed EqualFold t _)); [discriminate|].
  unfold File_Seek in H. change (0 <? 0) with false in H. cbv iota zeta in H.
  change (Z.to_nat 0) with 0%nat in H.
  assert (Hfin : forall name src,
            match os_Create (fs w) (filepath_Join dir name) with
            | (fs1, Some err) =>
                Ret ([], Some (fs_PathError "open" (filepath_Join dir name) err),
                     mkWorld fs1 src)
            | (fs1, None) =>
                match io_Copy fs1 (filepath_Join dir name) (mkFile (content f) 0) with
                | (fs2, _, Some err) => Ret ([], Some err, mkWorld fs2 src)
                | (fs2, fileSize, None) =>
                    Ret (acc ++ [mkUploadedFile name (Filename hdr) fileSize],
                         None, mkWorld fs2 src)
                end
            end = Ret (files, None, w') ->
            files = acc ++ [mkUploadedFile name (Filename hdr)
                              (Z.of_nat (length (content f)))] /\
            nodes (fs w') !! filepath_Join dir name = Some (Regular (content f)) /\
            entropy w' = src).
  { intros name src Hrun.
    destruct (os_Create (fs w) (filepath_Join dir name)) as [fs1 [err|]] eqn:Hcr;
      [discriminate|].
    apply os_Create_ok in Hcr. unfold io_Copy in Hrun.
    cbn [offset content] in Hrun. rewrite drop_0 in Hrun.
    destruct (write_file fs1 (filepath_Join dir name) (content f))
      as [[fs2 size] [err|]] eqn:Hwr; [discriminate|].
    destruct (write_file_ok _ _ _ _ _ Hcr Hwr) as [-> Hnode].
    injection Hrun as <- <-. auto. }
  exists f. destruct rn.
  - destruct (RandomString 25 (entropy w)) as [[s src]|why] eqn:HR;
      [|discriminate].
    simpl in H. apply Hfin in H as (Hfiles & Hnode & Hent).
    exists (string_of_runes s +:+ filepath_Ext (Filename hdr)).
    split; [reflexivity|]. split; [rewrite Hdrop; discriminate|].
    split; [exact Hfiles|]. split; [exact Hnode|].
    exists s. rewrite Hent. auto.
  - simpl in H. apply Hfin in H as (Hfiles & Hnode & Hent).
    exists (Filename hdr).
    split; [reflexivity|]. split; [rewrite Hdrop; discriminate|]. auto.
Qed.

(** The two loops visit the file headers of the form one after the
    other, as one loop over [all_headers] would. *)
Lemma range_headers_app t dir rn h1 : forall h2 acc w,
  range_headers DetectContentType EqualFold t dir rn (h1 ++ h2) acc w =
  '(files, err, w1) ← range_headers DetectContentType EqualFold t dir rn h1 acc w;
  match err with
  | Some e => Ret (files, Some e, w1)
  | None => range_headers DetectContentType EqualFold t dir rn h2 files w1
  end.
Proof.
  induction h1 as [|hdr h1 IH]; intros h2 acc w; [reflexivity|]. simpl.
  destruct (upload_file DetectContentType EqualFold t dir rn hdr acc w)
    as [[[files [e|]] w1]|why]; simpl; try reflexivity.
  apply IH.
Qed.

Lemma range_form_flat t dir rn groups : forall acc w,
  range_form DetectContentType EqualFold t dir rn groups acc w =
  range_headers DetectContentType EqualFold t dir rn
    (concat (map snd groups)) acc w.
Proof.
  induction groups as [|[name hdrs] rest IH]; intros acc w; [reflexivity|].
  simpl. rewrite range_headers_app.
  destruct (range_headers DetectContentType EqualFold t dir rn hdrs acc w)
    as [[[files [e|]] w1]|why]; simpl; try reflexivity.
  apply IH.
Qed.

Lemma range_headers_ok_names t dir rn hdrs : forall acc w files w',
  range_headers DetectContentType EqualFold t dir rn hdrs acc w =
    Ret (files, None, w') ->
  map OriginalFileName files = map OriginalFileName acc ++ map Filename hdrs.
Proof.
  induction hdrs as [|hdr rest IH]; intros acc w files w'; simpl.
  - intros [= <- _]. now rewrite app_nil_r.
  - destruct (upload_file DetectContentType EqualFold t dir rn hdr acc w)
      as [[[acc1 [e|]] w1]|why] eqn:Hup; simpl; try discriminate.
    intros Hrest. apply IH in Hrest. rewrite Hrest.
    destruct (upload_file_ok_inv _ _ _ _ _ _ _ _ Hup)
      as (f & name & _ & _ & -> & _).
    rewrite map_app, <- app_assoc. reflexivity.
Qed.

(** When UploadFiles succeeds, it returns one record for every file part
    of the form, in the order in which the parts were visited, and each
    record carries the file name its part was submitted with. *)
Theorem UploadFiles_one_record_per_file t r dir rename w files t' w' :
  UploadFiles DetectContentType EqualFold t r dir rename w =
    Ret (files, None, t', w') ->
  exists form,
    ParseMultipartForm r (MaxFileSize (defaulted t)) = inl form /\
    map OriginalFileName files = map Filename (all_headers form) /\
    length files = length (all_headers form).
Proof.
  unfold UploadFiles.
  destruct (CreateDirIfNotExists dir (fs w)) as [fs1 [err|]]; [discriminate|].
  destruct (ParseMultipartForm r _) as [form|err]; [|discriminate].
  rewrite range_form_flat.
  destruct (range_headers _ _ _ _ _ _ _ _) as [[[files1 e1] w1]|why] eqn:Hrh;
    simpl; [|discriminate].
  intros [= -> -> _ _]. exists form. split; [reflexivity|].
  apply range_headers_ok_names in Hrh. simpl in Hrh.
  split; [exact Hrh|].
  apply (f_equal length) in Hrh. rewrite !length_map in Hrh. exact Hrh.
Qed.

(** Whatever UploadFiles returns, the configuration it leaves behind is
    the caller's with a MaxFileSize of 0 replaced by 1 GB: the allow-list
    and the JSON settings are as before, and MaxFileSize is never 0
    afterwards. *)
Theorem UploadFiles_configuration t r dir rename w files err t' w' :
  UploadFiles DetectContentType EqualFold t r dir rename w =
    Ret (files, err, t', w') ->
  MaxFileSize t' = (if MaxFileSize t =? 0 then 1073741824 else MaxFileSize t) /\
  MaxFileSize t' <> 0 /\
  AllowedFileTypes t' = AllowedFileTypes t /\
  MaxJSONSize t' = MaxJSONSize t /\
  AllowUnknownFields t' = AllowUnknownFields t.
Proof.
  intros H. assert (Ht : t' = defaulted t).
  { revert H. unfold UploadFiles.
    destruct (CreateDirIfNotExists dir (fs w)) as [fs1 [e|]]; [congruence|].
    destruct (ParseMultipartForm r _) as [form|e]; [|congruence].
    destruct (range_form _ _ _ _ _ _ _ _) as [[[files1 e1] w1]|why];
      simpl; congruence. }
  subst t'. unfold defaulted.
  destruct (Z.eqb_spec (MaxFileSize t) 0) as [E|E]; simpl;
    repeat split; solve [reflexivity | discriminate | exact E].
Qed.

(** When the first file part that UploadFiles visits is empty, its first
    read fails with io.EOF, and UploadFiles returns that error: an empty
    file cannot be uploaded, whatever the allow-list says. Nothing has
    been written but the upload directory, and no entropy was read. *)
Theorem UploadFiles_empty_file t r dir rename w fs1 form hdr rest f :
  CreateDirIfNotExists dir (fs w) = (fs1, None) ->
  ParseMultipartForm r (MaxFileSize (defaulted t)) = inl form ->
  all_headers form = hdr :: rest ->
  Open hdr = inl f ->
  drop (offset f) (content f) = [] ->
  UploadFiles DetectContentType EqualFold t r dir rename w =
    Ret ([], Some io_EOF, defaulted t, mkWorld fs1 (entropy w)).
Proof.
  intros HC HP Hall HO Hempty. unfold UploadFiles. rewrite HC, HP.
  rewrite range_form_flat. fold (all_headers form). rewrite Hall. simpl.
  unfold upload_file. rewrite HO. unfold File_Read. rewrite Hempty.
  reflexivity.
Qed.


(** [UploadOneFile] on a form with exactly one file part: the one run of
    the function literal behind a successful call. *)
Lemma UploadOneFile_single_inv t r dir rename w form hdr res t' w' :
  ParseMultipartForm r (MaxFileSize (defaulted t)) = inl form ->
  all_headers form = [hdr] ->
  UploadOneFile DetectContentType EqualFold t r dir rename w =
    Ret (res, None, t', w') ->
  exists fs1 files,
    upload_file DetectContentType EqualFold (defaulted t) dir
      (match rename with b :: _ => b | [] => true end) hdr []
      (mkWorld fs1 (entropy w)) = Ret (files, None, w') /\
    res = files !! 0%nat.
Proof.
  intros HP Hall. unfold UploadOneFile, UploadFiles.
  destruct (CreateDirIfNotExists dir (fs w)) as [fs1 [err|]];
    [simpl; discriminate|].
  rewrite HP, range_form_flat. fold (all_headers form). rewrite Hall.
  cbn [range_headers].
  destruct (upload_file _ _ _ _ _ _ _ _) as [[[files [e|]] w1]|why] eqn:Hup;
    simpl; try discriminate.
  destruct (files !! 0%nat) as [rec|] eqn:Hrec; [|discriminate].
  intros [= <- _ <-]. exists fs1, files. split; [exact Hup|]. now rewrite Hrec.
Qed.

(** When a request with exactly one file part is uploaded with
    UploadOneFile, the record returned carries the submitted file name
    and, as its size, the full length of the part, and the file that now
    stands in the upload directory under the new name holds the whole
    content of the part: the 512 bytes read to sniff the type are not
    lost. *)
Theorem UploadOneFile_persists_content t r dir rename w form hdr res t' w' :
  ParseMultipartForm r (MaxFileSize (defaulted t)) = inl form ->
  all_headers form = [hdr] ->
  UploadOneFile DetectContentType EqualFold t r dir rename w =
    Ret (res, None, t', w') ->
  exists f rec,
    res = Some rec /\ Open hdr = inl f /\
    OriginalFileName rec = Filename hdr /\
    FileSize rec = Z.of_nat (length (content f)) /\
    nodes (fs w') !! filepath_Join dir (NewFileName rec) =
      Some (Regular (content f)).
Proof.
  intros HP Hall H.
  destruct (UploadOneFile_single_inv _ _ _ _ _ _ _ _ _ _ HP Hall H)
    as (fs1 & files & Hup & ->).
  destruct (upload_file_ok_inv _ _ _ _ _ _ _ _ Hup)
    as (f & name & HO & _ & -> & Hnode & _).
  exists f, (mkUploadedFile name (Filename hdr) (Z.of_nat (length (content f)))).
  repeat split; assumption.
Qed.

(** The name UploadOneFile stores a single file part under. With rename
    on, which is the default, it is a string of 25 characters of
    randomStringSource, drawn with 25 reads of the entropy source,
    followed by the extension of the submitted name. With rename off it
    is the submitted name itself, and the entropy source is not read. *)
Theorem UploadOneFile_new_file_name t r dir rename w form hdr res t' w' :
  ParseMultipartForm r (MaxFileSize (defaulted t)) = inl form ->
  all_headers form = [hdr] ->
  UploadOneFile DetectContentType EqualFold t r dir rename w =
    Ret (res, None, t', w') ->
  exists rec,
    res = Some rec /\
    if match rename with b :: _ => b | [] => true end
    then exists s ps,
           NewFileName rec = string_of_runes s +:+ filepath_Ext (Filename hdr) /\
           length s = 25%nat /\
           Forall (fun c => c ∈ runes randomStringSource) s /\
           entropy w = map Some ps ++ entropy w' /\ length ps = 25%nat
    else NewFileName rec = Filename hdr /\ entropy w' = entropy w.
Proof.
  intros HP Hall H.
  destruct (UploadOneFile_single_inv _ _ _ _ _ _ _ _ _ _ HP Hall H)
    as (fs1 & files & Hup & ->).
  destruct (upload_file_ok_inv _ _ _ _ _ _ _ _ Hup)
    as (f & name & _ & _ & -> & _ & Hname).
  eexists. split; [reflexivity|]. simpl in *.
  destruct (match rename with b :: _ => b | [] => true end).
  - destruct Hname as (s & HR & ->).
    destruct (RandomString_loop_inv _ _ _ _ _ HR) as (ps & Hsrc & Hlen & Hall2).
    exists s, ps. split; [reflexivity|].
    split; [rewrite (Forall2_length _ _ _ Hall2); exact Hlen|].
    split; [|split; [exact Hsrc|exact Hlen]].
    clear -Hall2. induction Hall2 as [|c p s ps Hc _ IH]; constructor.
    + eapply list_elem_of_lookup_2, Hc.
    + exact IH.
  - exact Hname.
Qed.

End UploadMore.

(** [UploadFiles_error_nil] on a batch whose second part has a type the
    allow-list does not hold. *)
Lemma UploadFiles_error_nil_witness :
  exists files e t' w',
    UploadFiles sample_DetectContentType sample_EqualFold png_only_tools
      (request_with [png_part; text_part]) ["uploads"] [false] sample_world =
      Ret (files, Some e, t', w') /\
    files = [].
Proof.
  eexists _, _, _, _. split; [vm_compute; reflexivity|].
  eapply (UploadFiles_error_nil sample_DetectContentType sample_EqualFold
            png_only_tools (request_with [png_part; text_part]) ["uploads"]
            [false] sample_world).
  vm_compute. reflexivity.
Defined.

Lemma type_allowed_iff_witness :
  type_allowed sample_EqualFold png_only_tools "image/png" = true.
Proof.
  apply (type_allowed_iff sample_EqualFold png_only_tools "image/png").
  right. exists "IMAGE/PNG". split; [left|reflexivity].
Defined.

Lemma UploadFiles_one_record_per_file_witness :
  exists form,
    ParseMultipartForm (request_with [png_part; text_part])
      (MaxFileSize (defaulted sample_tools)) = inl form /\
    map OriginalFileName
      [mkUploadedFile "img.png" "img.png" 12;
       mkUploadedFile "notes.txt" "notes.txt" 5] =
      map Filename (all_headers form) /\
    length [mkUploadedFile "img.png" "img.png" 12;
            mkUploadedFile "notes.txt" "notes.txt" 5] =
      length (all_headers form).
Proof.
  eapply (UploadFiles_one_record_per_file sample_DetectContentType
            sample_EqualFold sample_tools (request_with [png_part; text_part])
            ["uploads"] [false] sample_world).
  vm_compute. reflexivity.
Defined.

Lemma UploadFiles_configuration_witness :
  MaxFileSize (defaulted sample_tools) = 1073741824 /\
  MaxFileSize (defaulted sample_tools) <> 0 /\
  AllowedFileTypes (defaulted sample_tools) = [] /\
  MaxJSONSize (defaulted sample_tools) = 0 /\
  AllowUnknownFields (defaulted sample_tools) = false.
Proof.
  eapply (UploadFiles_configuration sample_DetectContentType sample_EqualFold
            sample_tools (request_with [png_part]) ["uploads"] [false]
            sample_world).
  vm_compute. reflexivity.
Defined.

Lemma UploadFiles_empty_file_witness :
  UploadFiles sample_DetectContentType sample_EqualFold sample_tools
    (request_with [empty_part; png_part]) ["uploads"] [] sample_world =
  Ret ([], Some io_EOF, defaulted sample_tools, sample_world).
Proof.
  exact (UploadFiles_empty_file sample_DetectContentType sample_EqualFold
           sample_tools (request_with [empty_part; png_part]) ["uploads"] []
           sample_world sample_fs (mkForm [] [("file", [empty_part; png_part])])
           empty_part [png_part] (mkFile [] 0)
           eq_refl eq_refl eq_refl eq_refl eq_refl).
Defined.


Lemma UploadOneFile_persists_content_witness :
  exists res t' w',
    UploadOneFile sample_DetectContentType sample_EqualFold sample_tools
      (request_with [png_part]) ["uploads"] [] sample_world_entropy =
      Ret (res, None, t', w') /\
    exists f rec,
      res = Some rec /\ Open png_part = inl f /\
      OriginalFileName rec = Filename png_part /\
      FileSize rec = Z.of_nat (length (content f)) /\
      nodes (fs w') !! filepath_Join ["uploads"] (NewFileName rec) =
        Some (Regular (content f)).
Proof.
  eexists _, _, _. split; [vm_compute; reflexivity|].
  eapply (UploadOneFile_persists_content sample_DetectContentType
            sample_EqualFold sample_tools (request_with [png_part]) ["uploads"]
            [] sample_world_entropy (mkForm [] [("file", [png_part])]) png_part).
  - reflexivity.
  - reflexivity.
  - vm_compute. reflexivity.
Defined.

Lemma UploadOneFile_new_file_name_witness :
  exists res t' w',
    UploadOneFile sample_DetectContentType sample_EqualFold sample_tools
      (request_with [png_part]) ["uploads"] [] sample_world_entropy =
      Ret (res, None, t', w') /\
    exists rec,
      res = Some rec /\
      exists s ps,
        NewFileName rec = string_of_runes s +:+ filepath_Ext (Filename png_part) /\
        length s = 25%nat /\
        Forall (fun c => c ∈ runes randomStringSource) s /\
        entropy sample_world_entropy = map Some ps ++ entropy w' /\
        length ps = 25%nat.
Proof.
  eexists _, _, _. split; [vm_compute; reflexivity|].
  eapply (UploadOneFile_new_file_name sample_DetectContentType
            sample_EqualFold sample_tools (request_with [png_part]) ["uploads"]
            [] sample_world_entropy (mkForm [] [("file", [png_part])]) png_part).
  - reflexivity.
  - reflexivity.
  - vm_compute. reflexivity.
Defined.

(** ** Further properties of Slugify *)

Lemma in_class_not_hyphen r : in_class r = true -> r <> hyphen.
Proof. intros H ->. discriminate. Qed.

(** The replacement leaves runes of the class and hyphens only, and never
    two hyphens in a row. *)
Lemma ReplaceAllString_runes s :
  Forall (fun r => in_class r = true \/ r = hyphen) (ReplaceAllString s) /\
  Forall (fun r => in_class r = true \/ r = hyphen) (skip_match s).
Proof.
  induction s as [|r rest [IH1 IH2]]; [split; constructor|]. simpl.
  destruct (in_class r) eqn:Hr; split; auto.
Qed.

Lemma no_double_hyphen_cons a s :
  a <> hyphen -> no_double_hyphen s -> no_double_hyphen (a :: s).
Proof.
  intros Ha Hs. destruct s as [|b s]; [exact I|].
  split; [|exact Hs]. intros [H _]. contradiction.
Qed.

Lemma no_double_hyphen_tail a s :
  no_double_hyphen (a :: s) -> no_double_hyphen s.
Proof. destruct s as [|b s]; [auto|]. intros [_ H]. exact H. Qed.

Lemma ReplaceAllString_no_double s :
  no_double_hyphen (ReplaceAllString s) /\
  no_double_hyphen (hyphen :: skip_match s).
Proof.
  induction s as [|r rest [IH1 IH2]]; [split; exact I|].
  cbn [ReplaceAllString skip_match].
  destruct (in_class r) eqn:Hr.
  - apply in_class_not_hyphen in Hr.
    assert (H : no_double_hyphen (r :: ReplaceAllString rest))
      by (apply no_double_hyphen_cons; assumption).
    split; [exact H|]. split; [|exact H]. intros [_ E]. contradiction.
  - split; exact IH2.
Qed.

Lemma trim_leading_hyphens_facts s :
  head (trim_leading_hyphens s) <> Some hyphen /\
  (forall P : rune -> Prop, Forall P s -> Forall P (trim_leading_hyphens s)) /\
  (no_double_hyphen s -> no_double_hyphen (trim_leading_hyphens s)) /\
  (forall c, c ∈ s -> c <> hyphen -> c ∈ trim_leading_hyphens s).
Proof.
  induction s as [|r rest (IH1 & IH2 & IH3 & IH4)].
  - repeat split; auto; try discriminate.
  - cbn [trim_leading_hyphens]. destruct (Z.eqb_spec r hyphen) as [->|Hne].
    + split; [exact IH1|]. split; [|split].
      * intros P HP. inversion HP; subst. auto.
      * intros H. apply IH3. eapply no_double_hyphen_tail, H.
      * intros c Hc Hne. apply elem_of_cons in Hc as [->|Hc]; [contradiction|].
        auto.
    + repeat split; auto. simpl. congruence.
Qed.

Lemma trim_trailing_hyphens_head s :
  forall b t, trim_trailing_hyphens s = b :: t -> exists rest, s = b :: rest.
Proof.
  destruct s as [|r rest]; [discriminate|]. intros b t. simpl.
  destruct (trim_trailing_hyphens rest).
  - destruct (r =? hyphen); [discriminate|]. intros [= <- _]. eauto.
  - intros [= <- _]. eauto.
Qed.

Lemma trim_trailing_hyphens_facts s :
  last (trim_trailing_hyphens s) <> Some hyphen /\
  (forall P : rune -> Prop, Forall P s -> Forall P (trim_trailing_hyphens s)) /\
  (no_double_hyphen s -> no_double_hyphen (trim_trailing_hyphens s)) /\
  (forall c, c ∈ s -> c <> hyphen -> c ∈ trim_trailing_hyphens s) /\
  (head s <> Some hyphen -> head (trim_trailing_hyphens s) <> Some hyphen).
Proof.
  induction s as [|r rest (IH1 & IH2 & IH3 & IH4 & _)].
  - repeat apply conj; auto; discriminate.
  - cbn [trim_trailing_hyphens].
    destruct (trim_trailing_hyphens rest) as [|b t] eqn:Ht.
    + destruct (Z.eqb_spec r hyphen) as [->|Hne]; repeat apply conj.
      * discriminate.
      * constructor.
      * intros _. exact I.
      * intros c Hc Hc'. apply elem_of_cons in Hc as [->|Hc];
          [contradiction|]. apply IH4; assumption.
      * intros H _. apply H. reflexivity.
      * simpl. congruence.
      * intros P HP. inversion HP; subst. repeat constructor. assumption.
      * intros _. exact I.
      * intros c Hc Hc'. apply elem_of_cons in Hc as [->|Hc]; [left|].
        exfalso. eapply not_elem_of_nil, IH4; eassumption.
      * simpl. congruence.
    + repeat apply conj.
      * exact IH1.
      * intros P HP. inversion HP; subst. constructor; auto.
      * intros H. destruct (trim_trailing_hyphens_head rest b t Ht) as [rest' ->].
        split; [exact (proj1 H)|]. apply IH3. exact (proj2 H).
      * intros c Hc Hc'. apply elem_of_cons in Hc as [->|Hc]; [left|right; auto].
      * auto.
Qed.

Lemma trim_leading_hyphens_id s :
  head s <> Some hyphen -> trim_leading_hyphens s = s.
Proof.
  destruct s as [|r rest]; [reflexivity|]. simpl.
  destruct (Z.eqb_spec r hyphen) as [->|]; [congruence|reflexivity].
Qed.

Lemma trim_trailing_hyphens_id s :
  last s <> Some hyphen -> trim_trailing_hyphens s = s.
Proof.
  induction s as [|r rest IH]; [reflexivity|]. intros Hl.
  cbn [trim_trailing_hyphens]. destruct rest as [|b rest'].
  - simpl. destruct (Z.eqb_spec r hyphen) as [->|]; [|reflexivity].
    exfalso. apply Hl. reflexivity.
  - rewrite IH by exact Hl. reflexivity.
Qed.

(** On a text of class runes and single hyphens the replacement changes
    nothing. *)
Lemma ReplaceAllString_id s :
  Forall (fun r => in_class r = true \/ r = hyphen) s ->
  no_double_hyphen s ->
  ReplaceAllString s = s /\ hyphen :: skip_match s = match s with
                                                    | [] => [hyphen]
                                                    | r :: _ =>
                                                        if in_class r then hyphen :: s
                                                        else s
                                                    end.
Proof.
  induction s as [|r rest IH]; [auto|]. intros HF Hnd.
  inversion HF as [|? ? Hr HF']; subst.
  destruct (IH HF' (no_double_hyphen_tail _ _ Hnd)) as [IH1 IH2].
  cbn [ReplaceAllString skip_match]. destruct (in_class r) eqn:Hc.
  - rewrite IH1. auto.
  - destruct Hr as [Hr| ->]; [congruence|].
    rewrite IH2. destruct rest as [|b rest']; [auto|].
    destruct (in_class b) eqn:Hb; [auto|].
    inversion HF' as [|? ? Hb' _]; subst.
    destruct Hb' as [Hb'| ->]; [congruence|].
    exfalso. apply (proj1 Hnd). auto.
Qed.

(** The shape of a replaced and trimmed text. *)
Lemma trimmed_replacement_shape x :
  let y := trim_trailing_hyphens (trim_leading_hyphens (ReplaceAllString x)) in
  Forall (fun r => in_class r = true \/ r = hyphen) y /\
  head y <> Some hyphen /\
  last y <> Some hyphen /\
  no_double_hyphen y.
Proof.
  pose proof (proj1 (ReplaceAllString_runes x)) as HF.
  pose proof (proj1 (ReplaceAllString_no_double x)) as HN.
  destruct (trim_leading_hyphens_facts (ReplaceAllString x)) as (L1 & L2 & L3 & _).
  destruct (trim_trailing_hyphens_facts (trim_leading_hyphens (ReplaceAllString x)))
    as (T1 & T2 & T3 & _ & T5).
  cbv zeta. repeat split; auto.
Qed.

Lemma ReplaceAllString_keeps_class s c :
  c ∈ s -> in_class c = true ->
  c ∈ ReplaceAllString s /\ c ∈ skip_match s.
Proof.
  intros Hin Hc. induction s as [|r rest IH]; [inversion Hin|].
  cbn [ReplaceAllString skip_match].
  apply elem_of_cons in Hin as [<-|Hin].
  - rewrite Hc. split; left.
  - destruct (IH Hin) as [IH1 IH2].
    destruct (in_class r); split; try (right; assumption); assumption.
Qed.

Lemma ReplaceAllString_no_class s :
  Forall (fun r => in_class r = false) s ->
  skip_match s = [] /\
  ReplaceAllString s = match s with [] => [] | _ :: _ => [hyphen] end.
Proof.
  induction 1 as [|r rest Hr _ [IH1 IH2]]; [auto|].
  cbn [ReplaceAllString skip_match]. rewrite Hr, IH1. auto.
Qed.

Lemma class_rune_or_none (s : list rune) :
  Forall (fun r => in_class r = false) s \/
  exists c, c ∈ s /\ in_class c = true.
Proof.
  induction s as [|r rest [IH|(c & Hin & Hc)]].
  - left. constructor.
  - destruct (in_class r) eqn:Hr.
    + right. exists r. split; [left|exact Hr].
    + left. constructor; assumption.
  - right. exists c. split; [right; exact Hin|exact Hc].
Qed.

Section SlugifyMore.

Variable unicode_lower : rune -> rune.

(** The slug as the composition proved equal to the code's. *)
Lemma Slugify_ok_inv s slug :
  Slugify unicode_lower s = (slug, None) ->
  slug <> [] /\
  slug = trim_trailing_hyphens
           (trim_leading_hyphens
              (ReplaceAllString (strings_ToLower unicode_lower s))).
Proof.
  unfold Slugify, strings_Trim.
  destruct (decide (s = [])); [discriminate|].
  rewrite strings_TrimRight_hyphen, strings_TrimLeft_hyphen.
  destruct (trim_trailing_hyphens _) as [|a t]; [discriminate|].
  simpl. intros [= <-]. split; [discriminate|reflexivity].
Qed.

(** Every slug that Slugify returns is a well-formed slug: it is not
    empty, it holds ASCII lower-case letters, digits and hyphens only, it
    neither starts nor ends with a hyphen, and no two hyphens are
    adjacent. *)
Theorem Slugify_well_formed s slug :
  Slugify unicode_lower s = (slug, None) ->
  slug <> [] /\
  Forall (fun r => in_class r = true \/ r = hyphen) slug /\
  head slug <> Some hyphen /\
  last slug <> Some hyphen /\
  no_double_hyphen slug.
Proof.
  intros H. destruct (Slugify_ok_inv s slug H) as [Hne ->].
  split; [exact Hne|]. apply trimmed_replacement_shape.
Qed.

(** Slugify leaves its own results as they are: the slug of a slug is
    the slug itself. *)
Theorem Slugify_idempotent s slug :
  Slugify unicode_lower s = (slug, None) ->
  Slugify unicode_lower slug = (slug, None).
Proof.
  intros H. destruct (Slugify_ok_inv s slug H) as [Hne E].
  destruct (trimmed_replacement_shape (strings_ToLower unicode_lower s))
    as (HF & Hh & Hl & Hnd).
  rewrite <- E in HF, Hh, Hl, Hnd. clear E H s.
  assert (Hlow : strings_ToLower unicode_lower slug = slug).
  { clear -HF. induction HF as [|r rest Hr _ IH]; [reflexivity|].
    simpl. rewrite IH. f_equal. unfold unicode_ToLower.
    assert (Hb : r <= 127 /\ ~ (65 <= r <= 90)).
    { destruct Hr as [Hr| ->]; [|unfold hyphen; lia].
      unfold in_class in Hr. lia. }
    destruct (Z.leb_spec r 127); [|lia].
    destruct (Z.leb_spec 65 r), (Z.leb_spec r 90); simpl; lia. }
  unfold Slugify, strings_Trim.
  rewrite decide_False by exact Hne.
  rewrite strings_TrimRight_hyphen, strings_TrimLeft_hyphen, Hlow.
  rewrite (proj1 (ReplaceAllString_id slug HF Hnd)).
  rewrite trim_leading_hyphens_id, trim_trailing_hyphens_id by assumption.
  destruct slug; [congruence|reflexivity].
Qed.

(** Slugify fails with EmptyResult exactly on the non-empty texts that
    hold no rune which lower-cases to an ASCII letter or digit. *)
Theorem Slugify_empty_result_iff s :
  Slugify unicode_lower s = ([], Some EmptyResult) <->
  s <> [] /\
  Forall (fun r => in_class (unicode_ToLower unicode_lower r) = false) s.
Proof.
  unfold Slugify, strings_Trim, strings_ToLower, EmptyResult.
  destruct (decide (s = [])) as [->|Hne].
  - split; [discriminate|]. intros [H _]. congruence.
  - rewrite strings_TrimRight_hyphen, strings_TrimLeft_hyphen.
    rewrite <- (Forall_map (unicode_ToLower unicode_lower)
                  (fun r => in_class r = false) s).
    set (x := map (unicode_ToLower unicode_lower) s).
    assert (Hx : x <> []) by (subst x; destruct s; [congruence|discriminate]).
    split.
    + intros H. split; [exact Hne|].
      destruct (class_rune_or_none x) as [HF|(c & Hin & Hc)]; [exact HF|].
      exfalso.
      pose proof (proj1 (ReplaceAllString_keeps_class x c Hin Hc)) as H1.
      pose proof (in_class_not_hyphen c Hc) as Hch.
      apply (proj2 (proj2 (proj2 (trim_leading_hyphens_facts _)))) in H1;
        [|exact Hch].
      apply (proj1 (proj2 (proj2 (proj2 (trim_trailing_hyphens_facts _))))) in H1;
        [|exact Hch].
      destruct (trim_trailing_hyphens _); [inversion H1|discriminate].
    + intros [_ HF].
      rewrite (proj2 (ReplaceAllString_no_class x HF)).
      destruct x; [congruence|reflexivity].
Qed.

End SlugifyMore.

Lemma Slugify_well_formed_witness :
  runes "this-is-a-test" <> [] /\
  Forall (fun r => in_class r = true \/ r = hyphen) (runes "this-is-a-test") /\
  head (runes "this-is-a-test") <> Some hyphen /\
  last (runes "this-is-a-test") <> Some hyphen /\
  no_double_hyphen (runes "this-is-a-test").
Proof.
  apply (Slugify_well_formed (fun r => r) (runes "This is a test")).
  reflexivity.
Defined.

Lemma Slugify_idempotent_witness :
  Slugify (fun r => r) (runes "hello-world") = (runes "hello-world", None).
Proof.
  apply (Slugify_idempotent (fun r => r) (runes "  Hello,   World!! ")).
  reflexivity.
Defined.

(** [Slugify_empty_result_iff] on the Japanese text of the package's
    test, given by its code points. *)
Lemma Slugify_empty_result_iff_witness :
  Slugify (fun r => r) [12371; 12435; 12395; 12385; 12399; 19990; 30028] =
  ([], Some EmptyResult).
Proof.
  apply (Slugify_empty_result_iff (fun r => r)).
  split; [discriminate|]. repeat constructor.
Defined.

(** ** Further properties of the JSON helpers *)

Lemma substring_all (s : string) : String.substring 0 (String.length s) s = s.
Proof. induction s as [|c s IH]; [reflexivity|]. simpl. now rewrite IH. Qed.

(** [strings.TrimPrefix] gives back what was put after the prefix. *)
Lemma strings_TrimPrefix_append pre rest :
  String.prefix pre (pre +:+ rest) = true /\
  strings_TrimPrefix (pre +:+ rest) pre = rest.
Proof.
  assert (Hp : String.prefix pre (pre +:+ rest) = true).
  { induction pre as [|c pre IH]; simpl.
    - destruct rest; reflexivity.
    - destruct (Ascii.ascii_dec c c); [exact IH|congruence]. }
  split; [exact Hp|]. unfold strings_TrimPrefix. rewrite Hp.
  induction pre as [|c pre IH]; simpl.
  - rewrite Nat.sub_0_r. apply substring_all.
  - apply IH. clear IH. simpl in Hp.
    destruct (Ascii.ascii_dec c c); [exact Hp|congruence].
Qed.

Section JSONMore.

Variable any : Type.
Variable empty_struct : any.
Variable json_Marshal : any -> list byte + error.
Variable json_Decode : Decoder -> any -> option error * Decoder.
Variable fmt_Sprintf : string -> list (Z + string) -> string.
Variable http_NewRequest : string -> string -> list byte -> ClientRequest + error.
Variable http_DefaultClient : ClientRequest -> Response + error.
Variable any_of_JSONResponse : JSONResponse any -> any.

(** When the decoder refuses a field of the body that the target does not
    have, ReadJSON reports "body contains unknown key" with the text that
    follows "json: unknown field" in the decoder's message, and does not
    decode any further. *)
Theorem ReadJSON_unknown_key t body data key d1 :
  json_Decode (ReadJSON_decoder t body) data =
    (Some (errorString ("json: unknown field" +:+ key)), d1) ->
  ReadJSON any empty_struct json_Decode fmt_Sprintf t body data =
    Some (errorString (fmt_Sprintf "body contains unknown key %s" [inr key])).
Proof.
  intros H. unfold ReadJSON. rewrite H.
  destruct (strings_TrimPrefix_append "json: unknown field" key) as [Hp Ht].
  unfold ReadJSON_error. cbn [Error]. rewrite Hp, Ht. reflexivity.
Qed.

(** When WriteJSON can serialize the payload and write it, on a response
    of which nothing was sent yet and with a final status of three
    digits (200 to 999), it returns no error, the status sent is the one
    given, the headers sent name application/json as content type, and
    the body is what was written before followed by the serialized
    payload. *)
Theorem WriteJSON_sends_payload writer status data out headers :
  json_Marshal data = inl out ->
  sent writer = None ->
  write_error writer = None ->
  200 <= status <= 999 ->
  exists h,
    WriteJSON any json_Marshal writer status data headers =
      Ret (None, mkWriter h (Some (status, h)) (written writer ++ out) None) /\
    h !! "Content-Type" = Some ["application/json"].
Proof.
  intros HM Hs He [Hlo Hhi].
  unfold WriteJSON, WriteHeader, checkWriteHeaderCode, Write, send_header.
  rewrite HM. cbn [sent write_error header written]. rewrite Hs.
  assert (H1 : (status <? 100) = false) by (apply Z.ltb_ge; lia).
  assert (H2 : (999 <? status) = false) by (apply Z.ltb_ge; lia).
  rewrite H1, H2.
  cbn [orb mbind outcome_bind sent write_error header written]. rewrite He.
  eexists. split; [reflexivity|].
  unfold Header_Set. apply lookup_insert_eq.
Qed.

(** Every error WriteJSON returns comes from one of two places. Either
    the payload could not be serialized, and then the response is
    untouched; or the write of the body failed, and then the status and
    the headers have been sent and the body has grown by the first bytes
    of the payload that the writer took before it failed, if any: the
    count that [Write] returns is dropped. *)
Theorem WriteJSON_error_cases writer status data headers e writer' :
  sent writer = None ->
  200 <= status ->
  WriteJSON any json_Marshal writer status data headers = Ret (Some e, writer') ->
  (json_Marshal data = inr e /\ writer' = writer) \/
  (exists out h k, json_Marshal data = inl out /\
                   write_error writer = Some (k, e) /\
                   sent writer' = Some (status, h) /\
                   h !! "Content-Type" = Some ["application/json"] /\
                   written writer' = written writer ++ take k out).
Proof.
  intros Hs Hlo.
  unfold WriteJSON, WriteHeader, checkWriteHeaderCode, Write, send_header.
  destruct (json_Marshal data) as [out|e0].
  - cbn [sent write_error header written]. rewrite Hs.
    destruct ((status <? 100) || (999 <? status)); [discriminate|].
    cbn [mbind outcome_bind sent write_error header written].
    destruct (write_error writer) as [[k e1]|]; [|discriminate].
    intros [= <- <-]. right. eexists _, _, _.
    repeat split. unfold Header_Set. apply lookup_insert_eq.
  - intros [= <- <-]. left. auto.
Qed.

(** WriteJSON does not look at the status it is given: with a status
    that does not have three digits, on a response of which nothing was
    sent yet, [WriteHeader] panics, and so do WriteJSON, for every
    payload that can be serialized, and ErrorJSON, when that status is
    the first of its optional codes. *)
Theorem WriteJSON_invalid_status_panics writer status :
  sent writer = None ->
  status < 100 \/ 999 < status ->
  (forall data out headers,
     json_Marshal data = inl out ->
     WriteJSON any json_Marshal writer status data headers =
       Panic ("invalid WriteHeader code " +:+ pretty status)) /\
  (forall err out more,
     json_Marshal (any_of_JSONResponse (mkJSONResponse true (Error err) None)) =
       inl out ->
     ErrorJSON any json_Marshal any_of_JSONResponse writer err (status :: more) =
       Panic ("invalid WriteHeader code " +:+ pretty status)).
Proof.
  intros Hs Hbad.
  assert (Hchk : (status <? 100) || (999 <? status) = true).
  { destruct Hbad as [H|H]; apply Z.ltb_lt in H; rewrite H;
      [reflexivity|apply orb_true_r]. }
  split.
  - intros data out headers HM.
    unfold WriteJSON, WriteHeader, checkWriteHeaderCode. rewrite HM.
    cbn [sent]. rewrite Hs, Hchk. reflexivity.
  - intros err out more HM.
    unfold ErrorJSON, WriteJSON, WriteHeader, checkWriteHeaderCode. rewrite HM.
    cbn [sent]. rewrite Hs, Hchk. reflexivity.
Qed.

(** ErrorJSON answers with the envelope that has error set, the text of
    the error as message and no data. On a response of which nothing was
    sent yet and that can be written, the status sent is the first of
    the optional status codes, 400 when none is given, provided it is a
    final status of three digits (200 to 999); the content type is
    application/json and the other headers are as they were; the body
    gets the serialized envelope. *)
Theorem ErrorJSON_response writer err status out :
  json_Marshal (any_of_JSONResponse (mkJSONResponse true (Error err) None)) =
    inl out ->
  sent writer = None ->
  write_error writer = None ->
  200 <= hd 400 status <= 999 ->
  exists h,
    ErrorJSON any json_Marshal any_of_JSONResponse writer err status =
      Ret (None,
           mkWriter h (Some (hd 400 status, h)) (written writer ++ out) None) /\
    h !! "Content-Type" = Some ["application/json"] /\
    forall key, key <> "Content-Type" -> h !! key = header writer !! key.
Proof.
  intros HM Hs He [Hlo Hhi].
  unfold ErrorJSON. fold (hd 400 status).
  unfold WriteJSON, WriteHeader, checkWriteHeaderCode, Write, send_header.
  rewrite HM. cbn [sent write_error header written]. rewrite Hs.
  assert (H1 : (hd 400 status <? 100) = false) by (apply Z.ltb_ge; lia).
  assert (H2 : (999 <? hd 400 status) = false) by (apply Z.ltb_ge; lia).
  rewrite H1, H2.
  cbn [orb mbind outcome_bind sent write_error header written]. rewrite He.
  eexists. split; [reflexivity|].
  unfold Header_Set. rewrite CanonicalMIMEHeaderKey_Content_Type.
  split; [apply lookup_insert_eq|].
  intros key Hkey. apply lookup_insert_ne. congruence.
Qed.

(** PushJSONToRemote never returns a response together with an error:
    with an error come a nil response and the status 0; without one, a
    response, its own status code, and its body closed. *)
Theorem PushJSONToRemote_result_shape uri data client :
  match PushJSONToRemote any json_Marshal http_NewRequest http_DefaultClient
          uri data client with
  | (response, status, Some _) => response = None /\ status = 0
  | (response, status, None) =>
      exists r, response = Some r /\ status = StatusCode r /\
                closed (response_Body r) = true
  end.
Proof.
  unfold PushJSONToRemote.
  destruct (json_Marshal data) as [jsonData|e]; [|auto].
  destruct (http_NewRequest "POST" uri jsonData) as [request|e]; [|auto].
  destruct (match client with c :: _ => c | [] => http_DefaultClient end _)
    as [response|e]; [|auto].
  eexists. repeat split.
Qed.

End JSONMore.

Lemma ReadJSON_unknown_key_witness :
  ReadJSON (list byte) []
    (failing_Decode (errorString "json: unknown field fooo"))
    sample_Sprintf sample_tools body_good [] =
  Some (errorString (sample_Sprintf "body contains unknown key %s" [inr " fooo"])).
Proof.
  exact (ReadJSON_unknown_key (list byte) []
           (failing_Decode (errorString "json: unknown field fooo"))
           sample_Sprintf sample_tools body_good [] " fooo" _ eq_refl).
Defined.

Lemma WriteJSON_sends_payload_witness :
  exists h,
    WriteJSON (list byte) sample_Marshal sample_writer 201 (runes "{}") [] =
      Ret (None,
           mkWriter h (Some (201, h)) (written sample_writer ++ runes "{}") None) /\
    h !! "Content-Type" = Some ["application/json"].
Proof.
  exact (WriteJSON_sends_payload (list byte) sample_Marshal sample_writer 201
           (runes "{}") (runes "{}") [] eq_refl eq_refl eq_refl ltac:(lia)).
Defined.

(** A connection that breaks after one more byte: of the payload [{}]
    the brace that opens it reaches the body, and WriteJSON returns the
    error. *)
Lemma WriteJSON_error_cases_witness :
  let broken := mkWriter ∅ None [] (Some (1%nat, errorString "broken pipe")) in
  let json : gmap string (list string) := {[ "Content-Type" := ["application/json"] ]} in
  let after := mkWriter json (Some (200, json)) (runes "{")
                 (Some (0%nat, errorString "broken pipe")) in
  WriteJSON (list byte) sample_Marshal broken 200 (runes "{}") [] =
    Ret (Some (errorString "broken pipe"), after) /\
  ((sample_Marshal (runes "{}") = inr (errorString "broken pipe") /\ after = broken) \/
   (exists out h k, sample_Marshal (runes "{}") = inl out /\
                    write_error broken = Some (k, errorString "broken pipe") /\
                    sent after = Some (200, h) /\
                    h !! "Content-Type" = Some ["application/json"] /\
                    written after = written broken ++ take k out)).
Proof.
  intros broken json after.
  assert (Hrun : WriteJSON (list byte) sample_Marshal broken 200 (runes "{}") [] =
                   Ret (Some (errorString "broken pipe"), after))
    by (vm_compute; reflexivity).
  split; [exact Hrun|].
  exact (WriteJSON_error_cases (list byte) sample_Marshal broken 200 (runes "{}") []
           (errorString "broken pipe") after eq_refl ltac:(lia) Hrun).
Defined.

Lemma WriteJSON_invalid_status_panics_witness :
  WriteJSON (list byte) sample_Marshal sample_writer 0 (runes "{}") [] =
    Panic "invalid WriteHeader code 0" /\
  ErrorJSON (list byte) sample_Marshal (fun p => runes (Message p)) sample_writer
    (errorString "some error") [1000] = Panic "invalid WriteHeader code 1000".
Proof.
  split.
  - exact (proj1 (WriteJSON_invalid_status_panics (list byte) sample_Marshal
                    (fun p => runes (Message p)) sample_writer 0 eq_refl
                    ltac:(lia))
             (runes "{}") (runes "{}") [] eq_refl).
  - exact (proj2 (WriteJSON_invalid_status_panics (list byte) sample_Marshal
                    (fun p => runes (Message p)) sample_writer 1000 eq_refl
                    ltac:(lia))
             (errorString "some error") (runes "some error") [] eq_refl).
Defined.

Lemma ErrorJSON_response_witness :
  exists h,
    ErrorJSON (list byte) sample_Marshal
      (fun p => runes (Message p)) sample_writer (errorString "some error") [503] =
      Ret (None, mkWriter h (Some (503, h))
                   (written sample_writer ++ runes "some error") None) /\
    h !! "Content-Type" = Some ["application/json"] /\
    forall key, key <> "Content-Type" -> h !! key = header sample_writer !! key.
Proof.
  exact (ErrorJSON_response (list byte) sample_Marshal
           (fun p => runes (Message p)) sample_writer (errorString "some error")
           [503] (runes "some error") eq_refl eq_refl eq_refl ltac:(simpl; lia)).
Defined.
